(** * Matrix3x2.js: a 2D affine transform stored in a [Float32Array(6)]

    A shallow embedding of [src/matrix3x2.js].  The class keeps its six
    coefficients in a typed array that lives on the JavaScript heap and every
    method mutates that array in place, so the methods are embedded as
    computations over an explicit heap.  The methods are written once, over
    a class [Number] of the operations they use, so that what holds by the
    shape of the code alone is stated for every number system; what depends
    on the arithmetic is stated for the numbers a JavaScript engine computes
    with: IEEE 754 binary64, with a rounding to binary32 at each store into
    the array. *)

From Stdlib Require Import ZArith Lia Uint63 Floats FloatLemmas.
From stdpp Require Import base option list gmap.

(** ** Numbers *)

(** The operations of JavaScript numbers that the class uses, together
    with the conversion a [Float32Array] applies to a value stored in it. *)
Class Number (F : Type) := {
  num_0 : F;                      (* the literal 0 *)
  num_1 : F;                      (* the literal 1 *)
  num_add : F → F → F;            (* x + y *)
  num_sub : F → F → F;            (* x - y *)
  num_mul : F → F → F;            (* x * y *)
  num_div : F → F → F;            (* x / y *)
  num_neg : F → F;                (* -x *)
  fround : F → F                  (* the value kept by a Float32Array element *)
}.

(** [Math.cos] and [Math.sin] belong to the host, not to the repository. *)
Class MathObject (F : Type) := {
  Math_cos : F → F;
  Math_sin : F → F
}.

Declare Scope num_scope.
Delimit Scope num_scope with num.
Infix "+" := num_add : num_scope.
Infix "-" := num_sub : num_scope.
Infix "*" := num_mul : num_scope.
Infix "/" := num_div : num_scope.
Notation "- x" := (num_neg x) : num_scope.

(** ** The heap *)

Definition loc := positive.

(** The objects the class touches: the typed array behind a matrix and the
    caller's vector, an object with two number fields [x] and [y]. *)
Inductive object (F : Type) :=
  | Float32Array (elements : list F)
  | Vector2 (x y : F).
Arguments Float32Array {F} elements.
Arguments Vector2 {F} x y.

Abbreviation heap F := (gmap loc (object F)).

(** A [Matrix3x2] object has one field, [buffer], which the class never
    reassigns: the object is its reference to the typed array. *)
Record Matrix3x2 := { buffer : loc }.

(** Computations on the heap; [None] is a thrown exception. *)
Definition M (F A : Type) : Type := heap F → option (A * heap F).

Global Instance M_ret F : MRet (M F) := λ A a h, Some (a, h).
Global Instance M_bind F : MBind (M F) := λ A B k m h,
  match m h with
  | Some (a, h') => k a h'
  | None => None
  end.

Section HeapOperations.
Context {F : Type} `{Number F}.

(** [arr[i]] for a literal index [i].  An index outside the array (it
    would read [undefined]) does not occur with the six-element arrays
    of the class and is reported as [None]. *)
Definition load (arr : loc) (i : nat) : M F F := λ h,
  match h !! arr with
  | Some (Float32Array l) =>
      match l !! i with
      | Some v => Some (v, h)
      | None => None
      end
  | _ => None
  end.

(** [arr[i] = v]: the value is rounded to binary32; a typed array
    ignores a store outside its bounds. *)
Definition store (arr : loc) (i : nat) (v : F) : M F () := λ h,
  match h !! arr with
  | Some (Float32Array l) => Some ((), <[arr := Float32Array (<[i := fround v]> l)]> h)
  | _ => None
  end.

(** [target.set(source)] of [%TypedArray%.prototype.set] for two
    [Float32Array]s: the elements of [source] are copied over the start
    of [target]; a source longer than the target is a [RangeError]. *)
Definition typed_array_set (target source : loc) : M F () := λ h,
  match h !! target, h !! source with
  | Some (Float32Array t), Some (Float32Array s) =>
      if decide (length s ≤ length t)
      then Some ((), <[target := Float32Array (s ++ drop (length s) t)]> h)
      else None
  | _, _ => None
  end.

(** [new Float32Array(n)]: a fresh array of [n] zeros. *)
Definition new_Float32Array (n : nat) : M F loc := λ h,
  let l := fresh (dom h) in
  Some (l, <[l := Float32Array (replicate n num_0)]> h).

(** [vector.x], [vector.y] and the assignments to them. *)
Definition read_x (vector : loc) : M F F := λ h,
  match h !! vector with
  | Some (Vector2 x _) => Some (x, h)
  | _ => None
  end.

Definition read_y (vector : loc) : M F F := λ h,
  match h !! vector with
  | Some (Vector2 _ y) => Some (y, h)
  | _ => None
  end.

Definition write_x (vector : loc) (v : F) : M F () := λ h,
  match h !! vector with
  | Some (Vector2 _ y) => Some ((), <[vector := Vector2 v y]> h)
  | _ => None
  end.

Definition write_y (vector : loc) (v : F) : M F () := λ h,
  match h !! vector with
  | Some (Vector2 x _) => Some ((), <[vector := Vector2 x v]> h)
  | _ => None
  end.
End HeapOperations.

(** ** The class *)

Module Matrix3x2.
Section Methods.
Context {F : Type} `{Number F} `{MathObject F}.
Local Open Scope num_scope.

(** [buffer = new Float32Array(6)] *)
Definition new : M F Matrix3x2 :=
  b ← new_Float32Array 6;
  mret {| buffer := b |}.

Definition set (this other : Matrix3x2) : M F Matrix3x2 :=
  typed_array_set (buffer this) (buffer other);;
  mret this.

Definition apply (this : Matrix3x2) (vector : loc) : M F loc :=
  _x ← read_x vector;
  _y ← read_y vector;
  b0 ← load (buffer this) 0;
  b1 ← load (buffer this) 1;
  b2 ← load (buffer this) 2;
  write_x vector (b0 * _x + b1 * _y + b2);;
  b3 ← load (buffer this) 3;
  b4 ← load (buffer this) 4;
  b5 ← load (buffer this) 5;
  write_y vector (b3 * _x + b4 * _y + b5);;
  mret vector.

(** In a chained assignment the rightmost target is written first. *)
Definition identity (this : Matrix3x2) : M F Matrix3x2 :=
  store (buffer this) 4 num_1;;
  store (buffer this) 0 num_1;;
  store (buffer this) 5 num_0;;
  store (buffer this) 3 num_0;;
  store (buffer this) 2 num_0;;
  store (buffer this) 1 num_0;;
  mret this.

(** [a[i] += e] reads [a[i]] before it evaluates [e]. *)
Definition translate (this : Matrix3x2) (x y : F) : M F Matrix3x2 :=
  b2 ← load (buffer this) 2;
  b0 ← load (buffer this) 0;
  b1 ← load (buffer this) 1;
  store (buffer this) 2 (b2 + (b0 * x + b1 * y));;
  b5 ← load (buffer this) 5;
  b3 ← load (buffer this) 3;
  b4 ← load (buffer this) 4;
  store (buffer this) 5 (b5 + (b3 * x + b4 * y));;
  mret this.

Definition translateAbsolute (this : Matrix3x2) (x y : F) : M F Matrix3x2 :=
  b2 ← load (buffer this) 2;
  store (buffer this) 2 (b2 + x);;
  b5 ← load (buffer this) 5;
  store (buffer this) 5 (b5 + y);;
  mret this.

Definition rotate (this : Matrix3x2) (angle : F) : M F Matrix3x2 :=
  let cos := Math_cos angle in
  let sin := Math_sin angle in
  _00 ← load (buffer this) 0;
  _10 ← load (buffer this) 1;
  _20 ← load (buffer this) 2;
  _01 ← load (buffer this) 3;
  _11 ← load (buffer this) 4;
  _21 ← load (buffer this) 5;
  store (buffer this) 0 (_00 * cos - _01 * sin);;
  store (buffer this) 1 (_10 * cos - _11 * sin);;
  store (buffer this) 2 (_20 * cos - _21 * sin);;
  store (buffer this) 3 (_00 * sin + _01 * cos);;
  store (buffer this) 4 (_10 * sin + _11 * cos);;
  store (buffer this) 5 (_20 * sin + _21 * cos);;
  mret this.

Definition scale (this : Matrix3x2) (scale : F) : M F Matrix3x2 :=
  b0 ← load (buffer this) 0;
  store (buffer this) 0 (b0 * scale);;
  b1 ← load (buffer this) 1;
  store (buffer this) 1 (b1 * scale);;
  b2 ← load (buffer this) 2;
  store (buffer this) 2 (b2 * scale);;
  b3 ← load (buffer this) 3;
  store (buffer this) 3 (b3 * scale);;
  b4 ← load (buffer this) 4;
  store (buffer this) 4 (b4 * scale);;
  b5 ← load (buffer this) 5;
  store (buffer this) 5 (b5 * scale);;
  mret this.

(** Each statement reads [other.buffer] when it runs, after the
    statements before it have written [this.buffer]. *)
Definition multiply (this other : Matrix3x2) : M F Matrix3x2 :=
  _00 ← load (buffer this) 0;
  _10 ← load (buffer this) 1;
  _20 ← load (buffer this) 2;
  _01 ← load (buffer this) 3;
  _11 ← load (buffer this) 4;
  _21 ← load (buffer this) 5;
  o0 ← load (buffer other) 0;
  o1 ← load (buffer other) 1;
  store (buffer this) 0 (_00 * o0 + _01 * o1);;
  o0 ← load (buffer other) 0;
  o1 ← load (buffer other) 1;
  store (buffer this) 1 (_10 * o0 + _11 * o1);;
  o0 ← load (buffer other) 0;
  o1 ← load (buffer other) 1;
  o2 ← load (buffer other) 2;
  store (buffer this) 2 (_20 * o0 + _21 * o1 + o2);;
  o3 ← load (buffer other) 3;
  o4 ← load (buffer other) 4;
  store (buffer this) 3 (_00 * o3 + _01 * o4);;
  o3 ← load (buffer other) 3;
  o4 ← load (buffer other) 4;
  store (buffer this) 4 (_10 * o3 + _11 * o4);;
  o3 ← load (buffer other) 3;
  o4 ← load (buffer other) 4;
  o5 ← load (buffer other) 5;
  store (buffer this) 5 (_20 * o3 + _21 * o4 + o5);;
  mret this.

Definition invert (this : Matrix3x2) : M F Matrix3x2 :=
  _00 ← load (buffer this) 0;
  _10 ← load (buffer this) 1;
  _20 ← load (buffer this) 2;
  _01 ← load (buffer this) 3;
  _11 ← load (buffer this) 4;
  _21 ← load (buffer this) 5;
  let i := num_1 / (_00 * _11 - _10 * _01) in
  store (buffer this) 0 (i * _11);;
  store (buffer this) 1 (i * - _10);;
  store (buffer this) 2 (i * (_10 * _21 - _20 * _11));;
  store (buffer this) 3 (i * - _01);;
  store (buffer this) 4 (i * _00);;
  store (buffer this) 5 (i * (_20 * _01 - _00 * _21));;
  mret this.

(** The getters [x] and [y]. *)
Definition get_x (this : Matrix3x2) : M F F := load (buffer this) 2.
Definition get_y (this : Matrix3x2) : M F F := load (buffer this) 5.
End Methods.
End Matrix3x2.

(** ** JavaScript numbers *)

(** JavaScript numbers: binary64, with [Math.fround] as the rounding of a
    store into a [Float32Array] (round to nearest, ties to even, to
    precision 24 and maximal exponent 128). *)
Definition Math_fround (x : float) : float :=
  match Prim2SF x with
  | S754_finite s m e => SF2Prim (binary_round 24 128 s m e)
  | _ => x
  end.

Global Instance float_Number : Number float := {|
  num_0 := 0%float;
  num_1 := 1%float;
  num_add := PrimFloat.add;
  num_sub := PrimFloat.sub;
  num_mul := PrimFloat.mul;
  num_div := PrimFloat.div;
  num_neg := PrimFloat.opp;
  fround := Math_fround
|}.


(** ** The host's [Math] where it is known *)

(** [Math.PI / 2]: the binary64 number nearest to π/2 (1.5707963267948966). *)
Definition Math_PI_2 : float := 0x1.921fb54442d18p+0%float.

(** What [Math.cos] returns there in the engines that run the class:
    6.123233995736766e-17, the binary64 number nearest to the cosine of
    [Math_PI_2].  [Math.sin] returns 1 there. *)
Definition cos_PI_2 : float := 0x1.1a62633145c07p-54%float.

(** A host that is known at two arguments: at a zero, where ECMAScript
    fixes [Math.cos] to 1 and [Math.sin] to its argument, and at
    [Math.PI / 2].  Elsewhere it answers [NaN], and nothing is concluded
    from those answers. *)
Definition Math_known : MathObject float := {|
  Math_cos := λ x,
    if (x =? 0)%float then 1%float
    else if (x =? Math_PI_2)%float then cos_PI_2 else nan;
  Math_sin := λ x,
    if (x =? 0)%float then x
    else if (x =? Math_PI_2)%float then 1%float else nan
|}.

(** ** Integers among the binary64 numbers *)

(** The number that the integer [n] is in JavaScript (exactly [n] when
    its magnitude is below 2^53). *)
Definition integer (n : Z) : float :=
  match n with
  | Z0 => 0%float
  | Zpos p => of_uint63 (Uint63.of_Z (Zpos p))
  | Zneg p => (- of_uint63 (Uint63.of_Z (Zpos p)))%float
  end.

(** The numbers [l] are the integers [ns], one by one: [l[i] === ns[i]]. *)
Definition integers (l : list float) (ns : list Z) : Prop :=
  Forall2 (λ v n, (v =? integer n)%float = true) l ns.

(** Two lists of numbers that are equal entry by entry: [l1[i] === l2[i]]. *)
Definition same_numbers (l1 l2 : list float) : Prop :=
  Forall2 (λ u v, (u =? v)%float = true) l1 l2.

(** Mantissa and exponent of the positive integer [N] at precision
    [prec]: [N = canon_m · 2^canon_e] with the mantissa on [prec] bits. *)
Definition canon_m (prec N : Z) : Z := (N * 2 ^ (prec - 1 - Z.log2 N))%Z.
Definition canon_e (prec N : Z) : Z := (Z.log2 N - (prec - 1))%Z.

(** The binary64 number that is the integer [n], as [Prim2SF] shows it. *)
Definition SFcanon (n : Z) : spec_float :=
  match n with
  | Z0 => S754_zero false
  | _ => S754_finite (n <? 0)%Z (Z.to_pos (canon_m 53 (Z.abs n))) (canon_e 53 (Z.abs n))
  end.

(** [x] is the integer [n]; a zero of either sign is the integer 0. *)
Definition represents (x : float) (n : Z) : Prop :=
  match n with
  | Z0 => ∃ s, Prim2SF x = S754_zero s
  | _ => Prim2SF x = SFcanon n
  end.

(** [x] is the integer [n], of magnitude at most [B]. *)
Definition exact_int (B : Z) (x : float) (n : Z) : Prop :=
  represents x n ∧ (Z.abs n <= B)%Z.

(** ** Programs and formulas the properties speak about *)

Section Programs.
Context {F : Type} `{Number F} `{MathObject F}.
Local Open Scope num_scope.

(** Modelled from the spec: [clone] is named by the specification's
    inverse law but is not a method of the source class; a copy is made
    the way the class allows it, [new Matrix3x2().set(this)]. *)
Definition clone (this : Matrix3x2) : M F Matrix3x2 :=
  m ← Matrix3x2.new;
  Matrix3x2.set m this.

(** A call of one of the mutating methods of the class. *)
Inductive mutation :=
  | Set_ (other : Matrix3x2)
  | Identity
  | Translate (x y : F)
  | TranslateAbsolute (x y : F)
  | Rotate (angle : F)
  | Scale (scale : F)
  | Multiply (other : Matrix3x2)
  | Invert.

Definition mutate (this : Matrix3x2) (call : mutation) : M F Matrix3x2 :=
  match call with
  | Set_ other => Matrix3x2.set this other
  | Identity => Matrix3x2.identity this
  | Translate x y => Matrix3x2.translate this x y
  | TranslateAbsolute x y => Matrix3x2.translateAbsolute this x y
  | Rotate angle => Matrix3x2.rotate this angle
  | Scale scale => Matrix3x2.scale this scale
  | Multiply other => Matrix3x2.multiply this other
  | Invert => Matrix3x2.invert this
  end.

(** The six formulas of [multiply] as the specification prints them, for
    [self = [a,b,c,d,e,f]] and [other = [a2,b2,c2,d2,e2,f2]]. *)
Definition spec_multiply (a b c d e f a2 b2 c2 d2 e2 f2 : F) : list F :=
  [a * a2 + d * b2; a * d2 + d * e2; a * c2 + d * f2 + c;
   b * a2 + e * b2; b * d2 + e * e2; b * c2 + e * f2 + f].

(** [T1.multiply(T2).multiply(T3).apply(p)] *)
Definition multiply_chain_apply (T1 T2 T3 : Matrix3x2) (p : loc) : M F loc :=
  m ← Matrix3x2.multiply T1 T2;
  m ← Matrix3x2.multiply m T3;
  Matrix3x2.apply m p.


(** [T3.apply(T2.apply(T1.apply(p)))]: [T1] first, then [T2], then [T3]. *)
Definition apply_T1_T2_T3 (T1 T2 T3 : Matrix3x2) (p : loc) : M F loc :=
  q ← Matrix3x2.apply T1 p;
  q ← Matrix3x2.apply T2 q;
  Matrix3x2.apply T3 q.

(** [T.clone().invert().apply(T.clone().apply(p))]; the receiver of the
    outer call is evaluated before its argument. *)
Definition inverse_roundtrip (T : Matrix3x2) (p : loc) : M F loc :=
  Ti ← (c ← clone T; Matrix3x2.invert c);
  q ← (c ← clone T; Matrix3x2.apply c p);
  Matrix3x2.apply Ti q.

(** [new Matrix3x2().identity().rotate(angle).translate(dx, dy).apply(p)] *)
Definition identity_rotate_translate_apply (angle dx dy : F) (p : loc) : M F loc :=
  m ← Matrix3x2.new;
  m ← Matrix3x2.identity m;
  m ← Matrix3x2.rotate m angle;
  m ← Matrix3x2.translate m dx dy;
  Matrix3x2.apply m p.

(** [new Matrix3x2().identity().translate(dx, dy).scale(k).apply(p)] *)
Definition identity_translate_scale_apply (dx dy k : F) (p : loc) : M F loc :=
  m ← Matrix3x2.new;
  m ← Matrix3x2.identity m;
  m ← Matrix3x2.translate m dx dy;
  m ← Matrix3x2.scale m k;
  Matrix3x2.apply m p.

End Programs.
Arguments mutation F : clear implicits.

(** The specification's [Infinity] and [NaN], seen through [Prim2SF]. *)
Definition SF_nonfinite (x : spec_float) : bool :=
  match x with
  | S754_infinity _ | S754_nan => true
  | _ => false
  end.

(** [invert] returns normally on the matrix [this], none of the six
    coefficients it stores is finite, and whenever [this] is applied
    while it holds them, whatever the point, both coordinates it writes
    are non-finite. *)
Definition invert_poisons (this : Matrix3x2) (h : heap float) : Prop :=
  ∃ a' b' c' d' e' f' : float,
    Matrix3x2.invert this h =
      Some (this, <[buffer this := Float32Array [a'; b'; c'; d'; e'; f']]> h)
    ∧ Forall (λ v, is_finite v = false) [a'; b'; c'; d'; e'; f']
    ∧ ∀ (h' : heap float) (p : loc) (x y : float),
        h' !! buffer this = Some (Float32Array [a'; b'; c'; d'; e'; f']) →
        h' !! p = Some (Vector2 x y) →
        ∃ x' y' : float,
          Matrix3x2.apply this p h' = Some (p, <[p := Vector2 x' y']> h')
          ∧ is_finite x' = false ∧ is_finite y' = false.

(** Two binary64 numbers within [tol] of each other. *)
Definition within (tol x y : float) : bool := (abs (x - y) <=? tol)%float.


(** ** The shape of the heap *)

(** What a method of the class can never change in an object other than
    through [apply]: the number of elements of a typed array, and the
    two fields of a vector. *)
Definition shape {F : Type} (o : object F) : nat + F * F :=
  match o with
  | Float32Array l => inl (length l)
  | Vector2 x y => inr (x, y)
  end.

(** Two heaps with the same objects, up to the contents of the arrays. *)
Definition same_shape {F : Type} (h h' : heap F) : Prop :=
  ∀ l : loc, shape <$> h !! l = shape <$> h' !! l.

(** ** Calls that keep a coefficient *)

(** [identity] and [set] overwrite the six coefficients without reading
    them; every other mutating method computes the new ones from the
    old. *)
Definition overwrites {F : Type} (call : mutation F) : bool :=
  match call with
  | Set_ _ | Identity => true
  | _ => false
  end.

(** The argument of the call, when it has one, is a matrix with a
    six-element buffer. *)
Definition argument_ok {F : Type} (h : heap F) (call : mutation F) : Prop :=
  match call with
  | Set_ other | Multiply other =>
      ∃ a b c d e f : F, h !! buffer other = Some (Float32Array [a; b; c; d; e; f])
  | _ => True
  end.

(** ** Stepping a method through the heap *)

Section Stepping.
Context {F : Type} `{Number F}.

Lemma bind_eq {A B} (m : M F A) (k : A → M F B) h a h' :
  m h = Some (a, h') → (m ≫= k) h = k a h'.
Proof. intros Hm. unfold mbind, M_bind. by rewrite Hm. Qed.

Lemma bind_Some {A B} (m : M F A) (k : A → M F B) h b h'' :
  (m ≫= k) h = Some (b, h'') →
  ∃ a h', m h = Some (a, h') ∧ k a h' = Some (b, h'').
Proof.
  unfold mbind, M_bind. destruct (m h) as [[a h']|]; [eauto | done].
Qed.

Lemma load_eq (h : heap F) arr l i v :
  h !! arr = Some (Float32Array l) → l !! i = Some v → load arr i h = Some (v, h).
Proof. intros Hh Hl. unfold load. by rewrite Hh, Hl. Qed.

Lemma store_eq (h : heap F) arr l i v :
  h !! arr = Some (Float32Array l) →
  store arr i v h = Some ((), <[arr := Float32Array (<[i := fround v]> l)]> h).
Proof. intros Hh. unfold store. by rewrite Hh. Qed.

Lemma read_x_eq (h : heap F) vector x y :
  h !! vector = Some (Vector2 x y) → read_x vector h = Some (x, h).
Proof. intros Hh. unfold read_x. by rewrite Hh. Qed.

Lemma read_y_eq (h : heap F) vector x y :
  h !! vector = Some (Vector2 x y) → read_y vector h = Some (y, h).
Proof. intros Hh. unfold read_y. by rewrite Hh. Qed.

Lemma write_x_eq (h : heap F) vector x y v :
  h !! vector = Some (Vector2 x y) →
  write_x vector v h = Some ((), <[vector := Vector2 v y]> h).
Proof. intros Hh. unfold write_x. by rewrite Hh. Qed.

Lemma write_y_eq (h : heap F) vector x y v :
  h !! vector = Some (Vector2 x y) →
  write_y vector v h = Some ((), <[vector := Vector2 x v]> h).
Proof. intros Hh. unfold write_y. by rewrite Hh. Qed.

Lemma typed_array_set_eq (h : heap F) target source t s :
  h !! target = Some (Float32Array t) →
  h !! source = Some (Float32Array s) →
  length s = length t →
  typed_array_set target source h = Some ((), <[target := Float32Array s]> h).
Proof.
  intros Ht Hs Hlen. unfold typed_array_set. rewrite Ht, Hs.
  rewrite decide_True by lia.
  by rewrite Hlen, drop_all, app_nil_r.
Qed.

(** What the primitives leave alone. *)
Lemma load_heap (h h' : heap F) arr i v : load arr i h = Some (v, h') → h' = h.
Proof.
  unfold load. destruct (h !! arr) as [[l|]|]; try done.
  destruct (l !! i); naive_solver.
Qed.

Lemma store_frame (h h' : heap F) arr i v u l' :
  store arr i v h = Some (u, h') → l' ≠ arr → h' !! l' = h !! l'.
Proof.
  unfold store. destruct (h !! arr) as [[l|]|]; try done.
  intros [= _ <-] Hne. by rewrite lookup_insert_ne.
Qed.

Lemma typed_array_set_frame (h h' : heap F) target source u l' :
  typed_array_set target source h = Some (u, h') → l' ≠ target → h' !! l' = h !! l'.
Proof.
  unfold typed_array_set.
  destruct (h !! target) as [[t|]|]; try done.
  destruct (h !! source) as [[s|]|]; try done.
  case_decide; [|done]. intros [= _ <-] Hne. by rewrite lookup_insert_ne.
Qed.
End Stepping.

(** A lookup in a heap built by insertions, at a location known to be
    equal to or different from the inserted ones. *)
Ltac heap_lookup :=
  repeat first
    [ rewrite lookup_insert_eq
    | rewrite lookup_insert_ne by congruence ];
  first [ reflexivity | eassumption ].

(** Run the next load or store of a method body. *)
Ltac step :=
  first
    [ erewrite (bind_eq (load _ _)) by (eapply load_eq; [ heap_lookup | reflexivity ])
    | erewrite (bind_eq (store _ _ _)) by (eapply store_eq; heap_lookup)
    | erewrite (bind_eq (read_x _)) by (eapply read_x_eq; heap_lookup)
    | erewrite (bind_eq (read_y _)) by (eapply read_y_eq; heap_lookup)
    | erewrite (bind_eq (write_x _ _)) by (eapply write_x_eq; heap_lookup)
    | erewrite (bind_eq (write_y _ _)) by (eapply write_y_eq; heap_lookup) ];
  cbn [list_insert insert]; rewrite ?insert_insert_eq.

(** ** What each method does to a six-element buffer *)

Section Specs.
Context {F : Type} `{Number F} `{MathObject F}.
Local Open Scope num_scope.

Lemma set_spec (h : heap F) this other l a b c d e f :
  h !! buffer this = Some (Float32Array l) → length l = 6 →
  h !! buffer other = Some (Float32Array [a; b; c; d; e; f]) →
  Matrix3x2.set this other h =
    Some (this, <[buffer this := Float32Array [a; b; c; d; e; f]]> h).
Proof.
  intros Hthis Hlen Hother. unfold Matrix3x2.set.
  erewrite bind_eq by (eapply typed_array_set_eq; eauto). done.
Qed.

Lemma apply_spec (h : heap F) this vector a b c d e f x y :
  h !! buffer this = Some (Float32Array [a; b; c; d; e; f]) →
  h !! vector = Some (Vector2 x y) →
  Matrix3x2.apply this vector h =
    Some (vector, <[vector := Vector2 (a * x + b * y + c) (d * x + e * y + f)]> h).
Proof.
  intros Hthis Hv. unfold Matrix3x2.apply.
  assert (vector ≠ buffer this) by congruence.
  by repeat step.
Qed.

Lemma identity_spec (h : heap F) this a b c d e f :
  h !! buffer this = Some (Float32Array [a; b; c; d; e; f]) →
  Matrix3x2.identity this h =
    Some (this, <[buffer this := Float32Array
                   [fround num_1; fround num_0; fround num_0;
                    fround num_0; fround num_1; fround num_0]]> h).
Proof. intros Hthis. unfold Matrix3x2.identity. by repeat step. Qed.

Lemma translate_spec (h : heap F) this a b c d e f x y :
  h !! buffer this = Some (Float32Array [a; b; c; d; e; f]) →
  Matrix3x2.translate this x y h =
    Some (this, <[buffer this := Float32Array
                   [a; b; fround (c + (a * x + b * y));
                    d; e; fround (f + (d * x + e * y))]]> h).
Proof. intros Hthis. unfold Matrix3x2.translate. by repeat step. Qed.

Lemma translateAbsolute_spec (h : heap F) this a b c d e f x y :
  h !! buffer this = Some (Float32Array [a; b; c; d; e; f]) →
  Matrix3x2.translateAbsolute this x y h =
    Some (this, <[buffer this := Float32Array
                   [a; b; fround (c + x); d; e; fround (f + y)]]> h).
Proof. intros Hthis. unfold Matrix3x2.translateAbsolute. by repeat step. Qed.

Lemma rotate_spec (h : heap F) this a b c d e f angle :
  h !! buffer this = Some (Float32Array [a; b; c; d; e; f]) →
  Matrix3x2.rotate this angle h =
    Some (this, <[buffer this := Float32Array
                   [fround (a * Math_cos angle - d * Math_sin angle);
                    fround (b * Math_cos angle - e * Math_sin angle);
                    fround (c * Math_cos angle - f * Math_sin angle);
                    fround (a * Math_sin angle + d * Math_cos angle);
                    fround (b * Math_sin angle + e * Math_cos angle);
                    fround (c * Math_sin angle + f * Math_cos angle)]]> h).
Proof. intros Hthis. unfold Matrix3x2.rotate. cbv zeta. by repeat step. Qed.

Lemma scale_spec (h : heap F) this a b c d e f k :
  h !! buffer this = Some (Float32Array [a; b; c; d; e; f]) →
  Matrix3x2.scale this k h =
    Some (this, <[buffer this := Float32Array
                   [fround (a * k); fround (b * k); fround (c * k);
                    fround (d * k); fround (e * k); fround (f * k)]]> h).
Proof. intros Hthis. unfold Matrix3x2.scale. by repeat step. Qed.

Lemma multiply_spec (h : heap F) this other a b c d e f a2 b2 c2 d2 e2 f2 :
  buffer this ≠ buffer other →
  h !! buffer this = Some (Float32Array [a; b; c; d; e; f]) →
  h !! buffer other = Some (Float32Array [a2; b2; c2; d2; e2; f2]) →
  Matrix3x2.multiply this other h =
    Some (this, <[buffer this := Float32Array
                   [fround (a * a2 + d * b2); fround (b * a2 + e * b2);
                    fround (c * a2 + f * b2 + c2);
                    fround (a * d2 + d * e2); fround (b * d2 + e * e2);
                    fround (c * d2 + f * e2 + f2)]]> h).
Proof.
  intros Hne Hthis Hother. unfold Matrix3x2.multiply. by repeat step.
Qed.

Lemma invert_spec (h : heap F) this a b c d e f :
  h !! buffer this = Some (Float32Array [a; b; c; d; e; f]) →
  let i := num_1 / (a * e - b * d) in
  Matrix3x2.invert this h =
    Some (this, <[buffer this := Float32Array
                   [fround (i * e); fround (i * - b);
                    fround (i * (b * f - c * e));
                    fround (i * - d); fround (i * a);
                    fround (i * (c * d - a * f))]]> h).
Proof. intros Hthis i. unfold Matrix3x2.invert. cbv zeta. by repeat step. Qed.

Lemma new_spec (h : heap F) :
  let b := fresh (dom h) in
  h !! b = None ∧
  Matrix3x2.new h =
    Some ({| buffer := b |},
          <[b := Float32Array [num_0; num_0; num_0; num_0; num_0; num_0]]> h).
Proof.
  intros b. split; [|done].
  apply not_elem_of_dom, is_fresh.
Qed.
End Specs.

(** One call of a method on a buffer whose six entries are known. *)
Ltac call_step :=
  cbn [buffer];
  first
    [ erewrite (bind_eq (Matrix3x2.identity _)) by (eapply identity_spec; heap_lookup)
    | erewrite (bind_eq (Matrix3x2.translate _ _ _)) by (eapply translate_spec; heap_lookup)
    | erewrite (bind_eq (Matrix3x2.rotate _ _)) by (eapply rotate_spec; heap_lookup)
    | erewrite (bind_eq (Matrix3x2.scale _ _)) by (eapply scale_spec; heap_lookup)
    | erewrite (bind_eq (Matrix3x2.invert _)) by (eapply invert_spec; heap_lookup)
    | erewrite (bind_eq (Matrix3x2.apply _ _)) by (eapply apply_spec; heap_lookup) ];
  cbn [buffer]; rewrite ?insert_insert_eq.

(** Two lists of binary64 numbers differ when their images under
    [Prim2SF] do. *)
Ltac float_list_neq :=
  let Heq := fresh "Heq" in
  intros Heq; apply (f_equal (map Prim2SF)) in Heq;
  vm_compute in Heq; discriminate Heq.

(** ** The rounding of a store *)

(** [Math_fround] rounds to the nearest binary32 number, ties to even,
    overflows to [Infinity] and underflows through the subnormals. *)
Example fround_ties_to_even :
  (Math_fround 16777217 = 16777216 ∧ Math_fround 16777219 = 16777220)%float.
Proof. split; vm_compute; reflexivity. Qed.

Example fround_range :
  (Math_fround 0x1p128 = infinity ∧ Math_fround 0x1p-149 = 0x1p-149
   ∧ Math_fround 0x1p-150 = 0)%float.
Proof. repeat split; vm_compute; reflexivity. Qed.

(** ** Non-finite binary64 numbers *)

Section NonFinite.
Local Open Scope float_scope.

Lemma is_finite_nonfinite (x : float) :
  SF_nonfinite (Prim2SF x) = true → is_finite x = false.
Proof.
  intros Hx. unfold is_finite, is_nan, is_infinity.
  rewrite !FloatAxioms.eqb_spec, abs_spec.
  destruct (Prim2SF x) as [s|s| |s m e]; try discriminate Hx; try reflexivity.
  by destruct s.
Qed.

Lemma mul_nonfinite_l (x y : float) :
  SF_nonfinite (Prim2SF x) = true → SF_nonfinite (Prim2SF (x * y)) = true.
Proof.
  intros Hx. rewrite mul_spec.
  destruct (Prim2SF x) as [s|s| |s m e]; try discriminate Hx;
    by destruct (Prim2SF y).
Qed.

Lemma add_nonfinite (x y : float) :
  SF_nonfinite (Prim2SF x) = true → SF_nonfinite (Prim2SF y) = true →
  SF_nonfinite (Prim2SF (x + y)) = true.
Proof.
  intros Hx Hy. rewrite add_spec.
  destruct (Prim2SF x) as [s|s| |s m e]; try discriminate Hx;
    destruct (Prim2SF y) as [s'|s'| |s' m' e']; try discriminate Hy;
    try reflexivity.
  by destruct s, s'.
Qed.

Lemma fround_nonfinite (x : float) :
  SF_nonfinite (Prim2SF x) = true → Math_fround x = x.
Proof.
  intros Hx. unfold Math_fround.
  by destruct (Prim2SF x).
Qed.

Lemma div_one_zero (det : float) :
  (det =? 0) = true → SF_nonfinite (Prim2SF (1 / det)) = true.
Proof.
  intros Hdet. rewrite FloatAxioms.eqb_spec in Hdet. rewrite div_spec.
  destruct (Prim2SF det) as [s|s| |s m e]; try done.
  - by destruct s.
  - by destruct s.
Qed.
End NonFinite.

(** ** Integers in binary64

    The operations of the class are exact on integers as long as the
    results stay below 2^53, and a store into the array is exact below
    2^24.  The facts are proved from the specification of the binary64
    operations ([SpecFloat]), for the integer [n] in its normal form
    [SFcanon n]. *)

Section ExactIntegers.
Local Open Scope Z_scope.


(** *** Rounding a mantissa that needs no rounding *)

(** The number of binary digits of a positive integer. *)
Lemma digits2_pos_size (p : positive) : digits2_pos p = Pos.size p.
Proof. induction p; cbn; congruence. Qed.

Lemma Zdigits2_log2 (p : positive) : Zdigits2 (Zpos p) = Z.log2 (Zpos p) + 1.
Proof.
  cbn [Zdigits2]. rewrite digits2_pos_size.
  destruct p; cbn [Z.log2 Pos.size]; lia.
Qed.

(** [SpecFloat.iter_pos] iterates a function. *)
Lemma iter_pos_nat {A} (f : A → A) (p : positive) (x : A) :
  SpecFloat.iter_pos f p x = Nat.iter (Pos.to_nat p) f x.
Proof.
  revert x. induction p as [p IH|p IH|]; intros x; cbn [SpecFloat.iter_pos].
  - rewrite !IH, Pos2Nat.inj_xI.
    replace (S (2 * Pos.to_nat p))%nat with (Pos.to_nat p + (Pos.to_nat p + 1))%nat by lia.
    rewrite !Nat.iter_add. reflexivity.
  - rewrite !IH, Pos2Nat.inj_xO.
    replace (2 * Pos.to_nat p)%nat with (Pos.to_nat p + Pos.to_nat p)%nat by lia.
    rewrite Nat.iter_add. reflexivity.
  - reflexivity.
Qed.

(** Shifting an even mantissa right by one bit loses nothing. *)
Lemma shr_1_even (q : positive) :
  shr_1 {| shr_m := Zpos q~0; shr_r := false; shr_s := false |}
  = {| shr_m := Zpos q; shr_r := false; shr_s := false |}.
Proof. reflexivity. Qed.

(** Nor does shifting [q·2^n] right by [n] bits. *)
Lemma iter_shr_1_exact (n : nat) (q : Z) :
  0 < q →
  Nat.iter n shr_1 {| shr_m := q * 2 ^ Z.of_nat n; shr_r := false; shr_s := false |}
  = {| shr_m := q; shr_r := false; shr_s := false |}.
Proof.
  intros Hq. revert q Hq. induction n as [|n IH]; intros q Hq.
  - cbn [Nat.iter Z.of_nat]. by rewrite Z.pow_0_r, Z.mul_1_r.
  - rewrite Nat.iter_succ_r.
    replace (q * 2 ^ Z.of_nat (S n)) with (Zpos (Z.to_pos (q * 2 ^ Z.of_nat n))~0).
    2:{ rewrite Nat2Z.inj_succ. rewrite Z.pow_succ_r by apply Nat2Z.is_nonneg.
        rewrite Pos2Z.inj_xO, Z2Pos.id; [ring|].
        apply Z.mul_pos_pos; [done|]. apply Z.pow_pos_nonneg; lia. }
    rewrite shr_1_even, Z2Pos.id.
    2:{ apply Z.mul_pos_pos; [done|]. apply Z.pow_pos_nonneg; lia. }
    by apply IH.
Qed.

Lemma shr_exact (m q e j : Z) :
  0 < q → 0 <= j → m = q * 2 ^ j →
  shr {| shr_m := m; shr_r := false; shr_s := false |} e j
  = ({| shr_m := q; shr_r := false; shr_s := false |}, e + j).
Proof.
  intros Hq Hj ->. unfold shr. destruct j as [|j|j]; [| |lia].
  - rewrite Z.pow_0_r, Z.mul_1_r, Z.add_0_r. reflexivity.
  - rewrite iter_pos_nat. f_equal.
    rewrite <- (positive_nat_Z j) at 1.
    by apply iter_shr_1_exact.
Qed.

(** The mantissa [canon_m prec N] has exactly [prec] bits. *)
Lemma log2_canon_m (prec N : Z) :
  0 < N → N < 2 ^ prec → Z.log2 (canon_m prec N) = prec - 1.
Proof.
  intros HN Hlt. unfold canon_m.
  assert (Z.log2 N < prec) by (apply Z.log2_lt_pow2; lia).
  rewrite Z.log2_mul_pow2 by lia. lia.
Qed.

Lemma canon_m_pos (prec N : Z) : 0 < N → N < 2 ^ prec → 0 < canon_m prec N.
Proof.
  intros HN Hlt. unfold canon_m.
  assert (Z.log2 N < prec) by (apply Z.log2_lt_pow2; lia).
  apply Z.mul_pos_pos; [done|]. apply Z.pow_pos_nonneg; lia.
Qed.

(** Rounding a mantissa that holds the integer [N] exactly, with at
    least [prec] digits, gives the canonical form of [N]. *)
Lemma binary_round_aux_exact (prec emax : Z) (s : bool) (m : positive) (e N k : Z) :
  0 < prec → prec <= emax → 2 <= emax →
  0 < N → N < 2 ^ prec →
  prec - 1 - Z.log2 N <= k →
  Zpos m = N * 2 ^ k → e = - k →
  binary_round_aux prec emax s (Zpos m) e loc_Exact
  = S754_finite s (Z.to_pos (canon_m prec N)) (canon_e prec N).
Proof.
  intros Hprec Hemax Hemax2 HN Hlt Hk Hm ->.
  assert (Hl : 0 <= Z.log2 N < prec).
  { split; [apply Z.log2_nonneg|]. apply Z.log2_lt_pow2; lia. }
  assert (Hk0 : 0 <= k) by lia.
  pose proof (canon_m_pos prec N HN Hlt) as Hcpos.
  unfold binary_round_aux, shr_fexp.
  rewrite Zdigits2_log2, Hm, Z.log2_mul_pow2 by lia.
  cbn [shr_record_of_loc].
  assert (Hfexp : fexp prec emax (k + Z.log2 N + 1 + - k) = canon_e prec N).
  { unfold fexp, SpecFloat.emin, canon_e. lia. }
  rewrite Hfexp.
  rewrite (shr_exact _ (canon_m prec N) _ (canon_e prec N - - k)).
  2: done.
  2: unfold canon_e; lia.
  2:{ unfold canon_m, canon_e. rewrite <- Z.mul_assoc, <- Z.pow_add_r by lia.
      do 2 f_equal. lia. }
  cbn [shr_m loc_of_shr_record round_nearest_even].
  replace (- k + (canon_e prec N - - k)) with (canon_e prec N) by lia.
  destruct (canon_m prec N) as [|c|c] eqn:Hc; [lia| |lia].
  rewrite Zdigits2_log2, <- Hc, log2_canon_m by lia.
  assert (Hfexp' : fexp prec emax (prec - 1 + 1 + canon_e prec N) = canon_e prec N).
  { unfold fexp, SpecFloat.emin, canon_e. lia. }
  rewrite Hfexp', Z.sub_diag. cbn [shr_record_of_loc shr shr_m].
  rewrite Hc.
  assert (Hle : (canon_e prec N <=? emax - prec) = true).
  { apply Z.leb_le. unfold canon_e. lia. }
  rewrite Hle. reflexivity.
Qed.

(** [Pos.iter xO] is a shift to the left. *)
Lemma Zpos_iter_xO (m d : positive) : Zpos (Pos.iter xO m d) = Zpos m * 2 ^ Zpos d.
Proof.
  induction d as [|d IH] using Pos.peano_ind.
  - cbn [Pos.iter]. rewrite Z.pow_1_r. lia.
  - rewrite Pos.iter_succ, Pos2Z.inj_xO, IH, Pos2Z.inj_succ, Z.pow_succ_r by lia.
    ring.
Qed.

(** The same for [binary_round], which first aligns the mantissa. *)
Lemma binary_round_exact (prec emax : Z) (s : bool) (m : positive) (e N k : Z) :
  0 < prec → prec <= emax → 2 <= emax →
  0 < N → N < 2 ^ prec → 0 <= k →
  Zpos m = N * 2 ^ k → e = - k →
  binary_round prec emax s m e
  = S754_finite s (Z.to_pos (canon_m prec N)) (canon_e prec N).
Proof.
  intros Hprec Hemax Hemax2 HN Hlt Hk Hm ->.
  assert (Hl : 0 <= Z.log2 N < prec).
  { split; [apply Z.log2_nonneg|]. apply Z.log2_lt_pow2; lia. }
  unfold binary_round.
  change (Zpos (digits2_pos m)) with (Zdigits2 (Zpos m)).
  rewrite Zdigits2_log2, Hm, Z.log2_mul_pow2 by lia.
  assert (Hfexp : fexp prec emax (k + Z.log2 N + 1 + - k) = canon_e prec N).
  { unfold fexp, SpecFloat.emin, canon_e. lia. }
  rewrite Hfexp. unfold shl_align.
  destruct (canon_e prec N - - k) as [|d|d] eqn:Hd.
  - eapply binary_round_aux_exact; eauto. unfold canon_e in Hd. lia.
  - eapply binary_round_aux_exact; eauto. unfold canon_e in Hd. lia.
  - eapply (binary_round_aux_exact _ _ _ _ _ N (prec - 1 - Z.log2 N)); eauto; try lia.
    + rewrite Zpos_iter_xO, Hm, <- Z.mul_assoc, <- Z.pow_add_r by lia.
      do 2 f_equal. unfold canon_e in Hd. lia.
    + unfold canon_e. lia.
Qed.

(** At the precision and range of binary64. *)
Lemma binary_round_exact64 (s : bool) (m : positive) (e N k : Z) :
  0 < N → N < 2 ^ 53 → 0 <= k → Zpos m = N * 2 ^ k → e = - k →
  binary_round prec emax s m e
  = S754_finite s (Z.to_pos (canon_m 53 N)) (canon_e 53 N).
Proof. intros. apply (binary_round_exact 53 1024 s m e N k); lia. Qed.

Lemma binary_round_aux_exact64 (s : bool) (m : positive) (e N k : Z) :
  0 < N → N < 2 ^ 53 → 52 - Z.log2 N <= k → Zpos m = N * 2 ^ k → e = - k →
  binary_round_aux prec emax s (Zpos m) e loc_Exact
  = S754_finite s (Z.to_pos (canon_m 53 N)) (canon_e 53 N).
Proof. intros. apply (binary_round_aux_exact 53 1024 s m e N k); lia. Qed.

(** Normalizing [n·2^k] at the exponent [-k] gives the integer [n]. *)
Lemma binary_normalize_exact (n k : Z) :
  Z.abs n < 2 ^ 53 → 0 <= k →
  binary_normalize prec emax (n * 2 ^ k) (- k) false = SFcanon n.
Proof.
  intros Hn Hk.
  assert (0 < 2 ^ k) by (apply Z.pow_pos_nonneg; lia).
  unfold binary_normalize.
  destruct (n * 2 ^ k) as [|m|m] eqn:Hm.
  - assert (n = 0) by nia. by subst.
  - assert (0 < n) by nia.
    rewrite (binary_round_exact64 false m _ n k) by lia.
    by destruct n.
  - assert (n < 0) by nia.
    rewrite (binary_round_exact64 true m _ (- n) k) by lia.
    by destruct n.
Qed.

Lemma SFcanon_nonzero (n : Z) :
  n ≠ 0 →
  SFcanon n = S754_finite (n <? 0) (Z.to_pos (canon_m 53 (Z.abs n))) (canon_e 53 (Z.abs n)).
Proof. by destruct n. Qed.

(** *** The operations of binary64 on integers *)

Lemma ltb_0_mul (a b : Z) : a ≠ 0 → b ≠ 0 → (a * b <? 0) = xorb (a <? 0) (b <? 0).
Proof. by destruct a, b. Qed.

(** A product of integers that stays below 2^53 is exact. *)
Lemma SFmul_exact (a b : Z) :
  a ≠ 0 → b ≠ 0 → Z.abs (a * b) < 2 ^ 53 →
  SF64mul (SFcanon a) (SFcanon b) = SFcanon (a * b).
Proof.
  intros Ha Hb Hab.
  assert (Ha' : 0 < Z.abs a < 2 ^ 53) by nia.
  assert (Hb' : 0 < Z.abs b < 2 ^ 53) by nia.
  assert (Hla : 0 <= Z.log2 (Z.abs a) < 53).
  { split; [apply Z.log2_nonneg|]. apply Z.log2_lt_pow2; lia. }
  assert (Hlb : 0 <= Z.log2 (Z.abs b) < 53).
  { split; [apply Z.log2_nonneg|]. apply Z.log2_lt_pow2; lia. }
  pose proof (Z.log2_mul_below (Z.abs a) (Z.abs b)) as Hlog.
  rewrite !SFcanon_nonzero by lia.
  unfold SF64mul, SFmul.
  rewrite (binary_round_aux_exact64 _ _ _ (Z.abs a * Z.abs b)
             ((52 - Z.log2 (Z.abs a)) + (52 - Z.log2 (Z.abs b)))).
  - rewrite Z.abs_mul, ltb_0_mul by done. reflexivity.
  - lia.
  - rewrite <- Z.abs_mul. lia.
  - lia.
  - rewrite Pos2Z.inj_mul, !Z2Pos.id by (apply canon_m_pos; lia).
    unfold canon_m. rewrite Z.pow_add_r by lia.
    replace (53 - 1 - Z.log2 (Z.abs a)) with (52 - Z.log2 (Z.abs a)) by lia.
    replace (53 - 1 - Z.log2 (Z.abs b)) with (52 - Z.log2 (Z.abs b)) by lia.
    ring.
  - unfold canon_e. lia.
Qed.

(** Aligning a mantissa to a smaller exponent shifts it to the left. *)
Lemma shl_align_fst (m : positive) (e ez : Z) :
  ez <= e → Zpos (fst (shl_align m e ez)) = Zpos m * 2 ^ (e - ez).
Proof.
  intros He. unfold shl_align.
  destruct (ez - e) as [|d|d] eqn:Hd; cbn [fst].
  - replace (e - ez) with 0 by lia. rewrite Z.pow_0_r. lia.
  - lia.
  - rewrite Zpos_iter_xO. do 2 f_equal. lia.
Qed.

Lemma cond_Zopp_canon (n : Z) (e : Z) :
  n ≠ 0 → Z.abs n < 2 ^ 53 → e <= canon_e 53 (Z.abs n) →
  cond_Zopp (n <? 0)
    (Zpos (fst (shl_align (Z.to_pos (canon_m 53 (Z.abs n))) (canon_e 53 (Z.abs n)) e)))
  = n * 2 ^ (- e).
Proof.
  intros Hn Hlt He.
  assert (Hl : 0 <= Z.log2 (Z.abs n) < 53).
  { split; [apply Z.log2_nonneg|]. apply Z.log2_lt_pow2; lia. }
  rewrite shl_align_fst by done.
  rewrite Z2Pos.id by (apply canon_m_pos; lia).
  unfold canon_m, canon_e in *.
  rewrite <- Z.mul_assoc, <- Z.pow_add_r by lia.
  replace (53 - 1 - Z.log2 (Z.abs n) + (Z.log2 (Z.abs n) - (53 - 1) - e)) with (- e) by lia.
  destruct n; cbn [Z.ltb Z.compare cond_Zopp Z.abs]; lia.
Qed.

(** Sums and differences of integers that stay below 2^53 are exact. *)
Lemma SFadd_exact (a b : Z) :
  a ≠ 0 → b ≠ 0 → Z.abs a < 2 ^ 53 → Z.abs b < 2 ^ 53 → Z.abs (a + b) < 2 ^ 53 →
  SF64add (SFcanon a) (SFcanon b) = SFcanon (a + b).
Proof.
  intros Ha Hb Hal Hbl Hab.
  assert (Hla : 0 <= Z.log2 (Z.abs a) < 53).
  { split; [apply Z.log2_nonneg|]. apply Z.log2_lt_pow2; lia. }
  assert (Hlb : 0 <= Z.log2 (Z.abs b) < 53).
  { split; [apply Z.log2_nonneg|]. apply Z.log2_lt_pow2; lia. }
  rewrite !SFcanon_nonzero by lia.
  unfold SF64add, SFadd. cbv zeta.
  rewrite !cond_Zopp_canon by lia.
  rewrite <- Z.mul_add_distr_r.
  set (ez := Z.min _ _).
  rewrite <- (Z.opp_involutive ez) at 2.
  apply binary_normalize_exact; [done|].
  subst ez. unfold canon_e. lia.
Qed.

Lemma SFsub_exact (a b : Z) :
  a ≠ 0 → b ≠ 0 → Z.abs a < 2 ^ 53 → Z.abs b < 2 ^ 53 → Z.abs (a - b) < 2 ^ 53 →
  SF64sub (SFcanon a) (SFcanon b) = SFcanon (a - b).
Proof.
  intros Ha Hb Hal Hbl Hab.
  assert (Hla : 0 <= Z.log2 (Z.abs a) < 53).
  { split; [apply Z.log2_nonneg|]. apply Z.log2_lt_pow2; lia. }
  assert (Hlb : 0 <= Z.log2 (Z.abs b) < 53).
  { split; [apply Z.log2_nonneg|]. apply Z.log2_lt_pow2; lia. }
  rewrite !SFcanon_nonzero by lia.
  unfold SF64sub, SFsub. cbv zeta.
  rewrite !cond_Zopp_canon by lia.
  rewrite <- Z.mul_sub_distr_r.
  set (ez := Z.min _ _).
  rewrite <- (Z.opp_involutive ez) at 2.
  apply binary_normalize_exact; [done|].
  subst ez. unfold canon_e. lia.
Qed.

(** *** The store into a [Float32Array]

    An integer below 2^24 is a binary32 number: rounding it to precision
    24 and reading the result back as a binary64 number returns it. *)

Lemma canon_canon (N : Z) :
  0 < N → N < 2 ^ 24 →
  canon_m 53 (canon_m 24 N) = canon_m 53 N
  ∧ canon_e 53 (canon_m 24 N) + canon_e 24 N = canon_e 53 N
  ∧ 0 < canon_m 24 N < 2 ^ 24.
Proof.
  intros HN Hlt.
  assert (Hl : 0 <= Z.log2 N < 24).
  { split; [apply Z.log2_nonneg|]. apply Z.log2_lt_pow2; lia. }
  assert (Hlog : Z.log2 (canon_m 24 N) = 23) by (rewrite log2_canon_m; lia).
  pose proof (canon_m_pos 24 N HN Hlt) as Hpos.
  assert (canon_m 24 N < 2 ^ 24) by (apply Z.log2_lt_pow2; lia).
  split; [|split; [|lia]].
  - unfold canon_m at 1. rewrite Hlog. unfold canon_m.
    rewrite <- Z.mul_assoc, <- Z.pow_add_r by lia. do 2 f_equal. lia.
  - unfold canon_e. rewrite Hlog. lia.
Qed.

Lemma Prim2SF_SF2Prim_single (s : bool) (N : Z) :
  0 < N → N < 2 ^ 24 →
  Prim2SF (SF2Prim (S754_finite s (Z.to_pos (canon_m 24 N)) (canon_e 24 N)))
  = S754_finite s (Z.to_pos (canon_m 53 N)) (canon_e 53 N).
Proof.
  intros HN Hlt.
  destruct (canon_canon N HN Hlt) as (Hm & He & Hpos).
  assert (Hl : 0 <= Z.log2 N < 24).
  { split; [apply Z.log2_nonneg|]. apply Z.log2_lt_pow2; lia. }
  assert (Hinner :
    Prim2SF (Z.ldexp (of_uint63 (Uint63.of_Z (Zpos (Z.to_pos (canon_m 24 N)))))
               (canon_e 24 N))
    = S754_finite false (Z.to_pos (canon_m 53 N)) (canon_e 53 N)).
  { rewrite Z_ldexp_spec, of_uint63_spec, Uint63.of_Z_spec, Z2Pos.id by lia.
    rewrite Z.mod_small.
    2:{ split; [lia|]. transitivity (2 ^ 24); [lia|]. done. }
    replace (canon_m 24 N) with (canon_m 24 N * 2 ^ 0) at 1 by (rewrite Z.pow_0_r; lia).
    change 0 with (- 0) at 2.
    rewrite binary_normalize_exact by lia.
    rewrite SFcanon_nonzero by lia.
    rewrite Z.abs_eq, Hm by lia.
    replace (canon_m 24 N <? 0) with false by (symmetry; apply Z.ltb_ge; lia).
    unfold SFldexp.
    apply (binary_round_exact64 _ _ _ N (52 - Z.log2 N)); try lia.
    - rewrite Z2Pos.id by (apply canon_m_pos; lia). unfold canon_m. repeat f_equal; lia.
    - rewrite He. unfold canon_e. lia. }
  unfold SF2Prim. destruct s.
  - by rewrite opp_spec, Hinner.
  - exact Hinner.
Qed.

Lemma fround_exact (x : float) (n : Z) :
  n ≠ 0 → Z.abs n < 2 ^ 24 → Prim2SF x = SFcanon n → Math_fround x = x.
Proof.
  intros Hn Hlt Hx.
  assert (Hl : 0 <= Z.log2 (Z.abs n) < 24).
  { split; [apply Z.log2_nonneg|]. apply Z.log2_lt_pow2; lia. }
  apply Prim2SF_inj. unfold Math_fround. rewrite Hx, SFcanon_nonzero by done.
  rewrite (binary_round_exact 24 128 _ _ _ (Z.abs n) (52 - Z.log2 (Z.abs n))); try lia.
  - apply Prim2SF_SF2Prim_single; lia.
  - rewrite Z2Pos.id.
    + unfold canon_m. repeat f_equal; lia.
    + apply canon_m_pos; [lia|]. transitivity (2 ^ 24); [lia|done].
  - unfold canon_e. lia.
Qed.

(** *** Numbers that are integers *)

Lemma represents_nonzero (x : float) (n : Z) :
  n ≠ 0 → represents x n → Prim2SF x = SFcanon n.
Proof. by destruct n. Qed.

Lemma SFcanon_represents (x : float) (n : Z) : Prim2SF x = SFcanon n → represents x n.
Proof. destruct n; [|done..]. intros Hx. by exists false. Qed.

(** The conversion of a machine integer below 2^53 is exact. *)
Lemma of_uint63_exact (n : Z) :
  0 < n → n < 2 ^ 53 → Prim2SF (of_uint63 (Uint63.of_Z n)) = SFcanon n.
Proof.
  intros Hn Hlt.
  rewrite of_uint63_spec, Uint63.of_Z_spec, Z.mod_small.
  2:{ split; [lia|]. transitivity (2 ^ 53); [lia|]. done. }
  replace n with (n * 2 ^ 0) at 1 by (rewrite Z.pow_0_r; lia).
  change 0 with (- 0) at 2.
  apply binary_normalize_exact; lia.
Qed.

Lemma SFopp_canon (n : Z) : n ≠ 0 → SFopp (SFcanon n) = SFcanon (- n).
Proof.
  intros Hn. rewrite !SFcanon_nonzero by lia. cbn [SFopp].
  rewrite Z.abs_opp. by destruct n.
Qed.

Lemma represents_integer (n : Z) : Z.abs n < 2 ^ 53 → represents (integer n) n.
Proof.
  intros Hn. destruct n as [|p|p]; cbn [integer].
  - by exists false.
  - cbn [represents]. apply of_uint63_exact; lia.
  - cbn [represents]. rewrite opp_spec, of_uint63_exact by lia.
    by rewrite SFopp_canon.
Qed.

Lemma represents_opp (x : float) (n : Z) : represents x n → represents (- x)%float (- n).
Proof.
  intros Hx. destruct (decide (n = 0)) as [->|Hn].
  - destruct Hx as [s Hx]. exists (negb s). by rewrite opp_spec, Hx.
  - apply SFcanon_represents.
    by rewrite opp_spec, (represents_nonzero x n), SFopp_canon.
Qed.

Lemma represents_mul (x y : float) (a b : Z) :
  represents x a → represents y b → Z.abs (a * b) < 2 ^ 53 →
  represents (x * y)%float (a * b).
Proof.
  intros Hx Hy Hab.
  destruct (decide (a = 0)) as [->|Ha]; [|destruct (decide (b = 0)) as [->|Hb]].
  - destruct Hx as [s Hx]. rewrite Z.mul_0_l. rewrite <- (Z.mul_0_l 0).
    destruct (decide (b = 0)) as [->|Hb].
    + destruct Hy as [s' Hy]. exists (xorb s s'). by rewrite mul_spec, Hx, Hy.
    + apply represents_nonzero in Hy; [|done]. rewrite SFcanon_nonzero in Hy by done.
      eexists. by rewrite mul_spec, Hx, Hy.
  - destruct Hy as [s Hy]. rewrite Z.mul_0_r.
    apply represents_nonzero in Hx; [|done]. rewrite SFcanon_nonzero in Hx by done.
    eexists. by rewrite mul_spec, Hx, Hy.
  - apply SFcanon_represents.
    rewrite mul_spec, (represents_nonzero x a), (represents_nonzero y b) by done.
    by apply SFmul_exact.
Qed.

Lemma represents_add (x y : float) (a b : Z) :
  represents x a → represents y b →
  Z.abs a < 2 ^ 53 → Z.abs b < 2 ^ 53 → Z.abs (a + b) < 2 ^ 53 →
  represents (x + y)%float (a + b).
Proof.
  intros Hx Hy Ha' Hb' Hab.
  destruct (decide (a = 0)) as [->|Ha]; [|destruct (decide (b = 0)) as [->|Hb]].
  - destruct Hx as [s Hx]. rewrite Z.add_0_l.
    destruct (decide (b = 0)) as [->|Hb].
    + destruct Hy as [s' Hy].
      destruct s, s'; eexists; rewrite add_spec, Hx, Hy; reflexivity.
    + apply SFcanon_represents. apply represents_nonzero in Hy; [|done].
      rewrite add_spec, Hx, Hy, SFcanon_nonzero by done. reflexivity.
  - destruct Hy as [s Hy]. rewrite Z.add_0_r.
    apply SFcanon_represents. apply represents_nonzero in Hx; [|done].
    rewrite add_spec, Hx, Hy, SFcanon_nonzero by done. reflexivity.
  - apply SFcanon_represents.
    rewrite add_spec, (represents_nonzero x a), (represents_nonzero y b) by done.
    by apply SFadd_exact.
Qed.

Lemma represents_sub (x y : float) (a b : Z) :
  represents x a → represents y b →
  Z.abs a < 2 ^ 53 → Z.abs b < 2 ^ 53 → Z.abs (a - b) < 2 ^ 53 →
  represents (x - y)%float (a - b).
Proof.
  intros Hx Hy Ha' Hb' Hab.
  destruct (decide (a = 0)) as [->|Ha]; [|destruct (decide (b = 0)) as [->|Hb]].
  - destruct Hx as [s Hx]. rewrite Z.sub_0_l.
    destruct (decide (b = 0)) as [->|Hb].
    + destruct Hy as [s' Hy].
      destruct s, s'; eexists; rewrite sub_spec, Hx, Hy; reflexivity.
    + apply SFcanon_represents. apply represents_nonzero in Hy; [|done].
      rewrite sub_spec, Hx, Hy, <- SFopp_canon, SFcanon_nonzero by done.
      reflexivity.
  - destruct Hy as [s Hy]. rewrite Z.sub_0_r.
    apply SFcanon_represents. apply represents_nonzero in Hx; [|done].
    rewrite sub_spec, Hx, Hy, SFcanon_nonzero by done. reflexivity.
  - apply SFcanon_represents.
    rewrite sub_spec, (represents_nonzero x a), (represents_nonzero y b) by done.
    by apply SFsub_exact.
Qed.

(** A store keeps an integer below 2^24 as it is. *)
Lemma represents_fround (x : float) (n : Z) :
  represents x n → Z.abs n < 2 ^ 24 → Math_fround x = x.
Proof.
  intros Hx Hn. destruct (decide (n = 0)) as [->|Hn0].
  - destruct Hx as [s Hx]. unfold Math_fround. by rewrite Hx.
  - apply (fround_exact x n); [done..|]. by apply represents_nonzero.
Qed.

Lemma SFeqb_finite_refl (s : bool) (m : positive) (e : Z) :
  SFeqb (S754_finite s m e) (S754_finite s m e) = true.
Proof.
  unfold SFeqb, SFcompare.
  destruct s; rewrite Z.compare_refl, ?Pos.compare_cont_refl, ?Pos.compare_refl; reflexivity.
Qed.

(** Two numbers that are the same integer are [===]. *)
Lemma represents_eqb (x y : float) (n : Z) :
  represents x n → represents y n → (x =? y)%float = true.
Proof.
  intros Hx Hy. rewrite FloatAxioms.eqb_spec.
  destruct (decide (n = 0)) as [->|Hn].
  - destruct Hx as [s ->], Hy as [s' ->]. reflexivity.
  - rewrite (represents_nonzero x n), (represents_nonzero y n), SFcanon_nonzero by done.
    apply SFeqb_finite_refl.
Qed.

(** [1 / 1] is 1 and [1 / -1] is -1. *)
Lemma represents_inv (x : float) (n : Z) :
  represents x n → n = 1 ∨ n = -1 → represents (1 / x)%float n.
Proof.
  intros Hx [->| ->].
  - assert (x = 1%float) as -> by (apply Prim2SF_inj; rewrite Hx; vm_compute; reflexivity).
    apply SFcanon_represents. vm_compute. reflexivity.
  - assert (x = (-1)%float) as -> by (apply Prim2SF_inj; rewrite Hx; vm_compute; reflexivity).
    apply SFcanon_represents. vm_compute. reflexivity.
Qed.

(** *** Integers with a bound *)

Lemma exact_int_integer (B n : Z) :
  Z.abs n <= B → B < 2 ^ 53 → exact_int B (integer n) n.
Proof. intros Hn HB. split; [apply represents_integer; lia | done]. Qed.

Lemma exact_int_0 : exact_int 0 0%float 0.
Proof. split; [by exists false | done]. Qed.

Lemma exact_int_1 : exact_int 1 1%float 1.
Proof. split; [vm_compute; reflexivity | done]. Qed.

Lemma exact_int_opp (B : Z) (x : float) (n : Z) :
  exact_int B x n → exact_int B (- x)%float (- n).
Proof. intros [Hx Hn]. split; [by apply represents_opp | lia]. Qed.

Lemma exact_int_mul (A B : Z) (x y : float) (a b : Z) :
  exact_int A x a → exact_int B y b → A * B < 2 ^ 53 →
  exact_int (A * B) (x * y)%float (a * b).
Proof.
  intros [Hx Ha] [Hy Hb] HAB.
  assert (Z.abs (a * b) <= A * B).
  { rewrite Z.abs_mul. apply Z.mul_le_mono_nonneg; lia. }
  split; [apply represents_mul; [done..|lia] | done].
Qed.

Lemma exact_int_add (A B : Z) (x y : float) (a b : Z) :
  exact_int A x a → exact_int B y b → A + B < 2 ^ 53 →
  exact_int (A + B) (x + y)%float (a + b).
Proof.
  intros [Hx Ha] [Hy Hb] HAB.
  split; [apply represents_add; [done..|lia|lia|lia] | lia].
Qed.

Lemma exact_int_sub (A B : Z) (x y : float) (a b : Z) :
  exact_int A x a → exact_int B y b → A + B < 2 ^ 53 →
  exact_int (A + B) (x - y)%float (a - b).
Proof.
  intros [Hx Ha] [Hy Hb] HAB.
  split; [apply represents_sub; [done..|lia|lia|lia] | lia].
Qed.

(** A store into the array keeps an integer below 2^24 as it is. *)
Lemma exact_int_fround (B : Z) (x : float) (n : Z) :
  exact_int B x n → B < 2 ^ 24 → exact_int B (Math_fround x) n.
Proof.
  intros [Hx Hn] HB. by rewrite (represents_fround x n) by (done || lia).
Qed.

(** [1 / x] for [x] one of the two units. *)
Lemma exact_int_inv (B : Z) (x : float) (n : Z) :
  exact_int B x n → n = 1 ∨ n = -1 → exact_int 1 (1 / x)%float n.
Proof.
  intros [Hx _] Hn. split; [by apply represents_inv | lia].
Qed.

(** Two numbers that are the same integer are [===]. *)
Lemma exact_int_eqb (A B : Z) (x y : float) (a b : Z) :
  exact_int A x a → exact_int B y b → a = b → (x =? y)%float = true.
Proof. intros [Hx _] [Hy _] <-. by eapply represents_eqb. Qed.

(** A number that is the integer [n] is [===] to [integer n]. *)
Lemma exact_int_eq_integer (B : Z) (x : float) (n m : Z) :
  exact_int B x n → B < 2 ^ 53 → n = m → (x =? integer m)%float = true.
Proof.
  intros [Hx Hn] HB <-. eapply represents_eqb; [done|].
  apply represents_integer. lia.
Qed.

End ExactIntegers.

(** The integer that an expression over integers computes, with a bound
    on its magnitude from the bounds on its leaves. *)
Ltac as_integer :=
  lazymatch goal with
  | |- exact_int _ (Math_fround _) _ =>
      eapply exact_int_fround; [as_integer | reflexivity]
  | |- exact_int _ (PrimFloat.add _ _) _ =>
      eapply exact_int_add; [as_integer | as_integer | reflexivity]
  | |- exact_int _ (PrimFloat.sub _ _) _ =>
      eapply exact_int_sub; [as_integer | as_integer | reflexivity]
  | |- exact_int _ (PrimFloat.mul _ _) _ =>
      eapply exact_int_mul; [as_integer | as_integer | reflexivity]
  | |- exact_int _ (PrimFloat.div 1%float _) _ =>
      eapply exact_int_inv; [as_integer | eassumption]
  | |- exact_int _ (PrimFloat.opp _) _ =>
      eapply exact_int_opp; as_integer
  | |- exact_int _ (integer _) _ =>
      eapply exact_int_integer;
        [first [eassumption | apply Z.le_refl] | reflexivity]
  | |- exact_int _ 0%float _ => exact exact_int_0
  | |- exact_int _ 1%float _ => exact exact_int_1
  end.

(** Two expressions over integers are [===] when the integers they
    compute are equal. *)
Ltac same_integer :=
  cbn [fround num_0 num_1 num_add num_sub num_mul num_div num_neg float_Number];
  eapply exact_int_eqb; [as_integer | as_integer | ].

(** An expression over integers is [===] to the integer it computes. *)
Ltac is_integer :=
  cbn [fround num_0 num_1 num_add num_sub num_mul num_div num_neg float_Number];
  eapply exact_int_eq_integer; [as_integer | reflexivity | ].

(** Two lists of numbers agree entry by entry. *)
Ltac agree :=
  unfold same_numbers, integers;
  repeat (constructor;
          [lazymatch goal with
           | |- (_ =? integer _)%float = true => is_integer
           | |- _ => same_integer
           end|]);
  [..| constructor].

(** An identity between integers that holds because the determinant
    [a·e − b·d] is 1 or -1. *)
Ltac unit_det Hdet :=
  let Hd := fresh "Hd" in
  let Hae := fresh "Hae" in
  destruct Hdet as [Hd|Hd];
  [ lazymatch type of Hd with
    | (?a * ?e - ?b * ?d = 1)%Z =>
        assert (a * e = b * d + 1)%Z as Hae by lia
    end
  | lazymatch type of Hd with
    | (?a * ?e - ?b * ?d = -1)%Z =>
        assert (a * e = b * d - 1)%Z as Hae by lia
    end ];
  clear Hd; ring [Hae].

(** The bounds on a list of integers, one hypothesis each. *)
Ltac bounds H :=
  repeat match type of H with
         | Forall _ (_ :: _) =>
             let Hn := fresh "Hn" in
             apply Forall_cons_1 in H as [Hn H]; cbv beta in Hn
         end;
  clear H.

(** ** The multiplication formulas *)

(** When the argument is the receiver itself, the later statements of
    [multiply] read entries the earlier ones have already overwritten. *)
Lemma multiply_self_spec {F : Type} `{Number F} (h : heap F) this a b c d e f :
  h !! buffer this = Some (Float32Array [a; b; c; d; e; f]) →
  let a' := fround (a * a + d * b)%num in
  let b' := fround (b * a' + e * b)%num in
  let d' := fround (a * d + d * e)%num in
  let e' := fround (b * d' + e * e)%num in
  Matrix3x2.multiply this this h =
    Some (this, <[buffer this := Float32Array
                   [a'; b'; fround (c * a' + f * b' + c)%num;
                    d'; e'; fround (c * d' + f * e' + f)%num]]> h).
Proof. intros Hthis. cbv zeta. unfold Matrix3x2.multiply. by repeat step. Qed.

(** C1, as stated, fails: for [self = [2,0,0,0,2,0]] (scale by 2) and
    [other = [1,0,1,0,1,0]] (translate by (1,0)) the code stores
    [c' = c·a2 + f·b2 + c2 = 1], while the specification's formula
    [a·c2 + d·f2 + c] gives 2. *)
Lemma C1_multiply_counterexample :
  let h : heap float :=
    {[ 1%positive := Float32Array [2; 0; 0; 0; 2; 0]%float;
       2%positive := Float32Array [1; 0; 1; 0; 1; 0]%float ]} in
  Matrix3x2.multiply {| buffer := 1%positive |} {| buffer := 2%positive |} h =
    Some ({| buffer := 1%positive |},
          <[1%positive := Float32Array [2; 0; 1; 0; 2; 0]%float]> h)
  ∧ (spec_multiply 2 0 0 0 2 0 1 0 1 0 1 0 = [2; 0; 2; 0; 2; 0])%float
  ∧ ([2; 0; 1; 0; 2; 0] ≠ spec_multiply 2 0 0 0 2 0 1 0 1 0 1 0)%float.
Proof.
  cbv zeta. split; [|split].
  - vm_compute. reflexivity.
  - vm_compute. reflexivity.
  - float_list_neq.
Qed.

(** C1, amended: for a receiver [self = [a,b,c,d,e,f]] and an argument
    [other = [a2,b2,c2,d2,e2,f2]] that is another object, [multiply] stores
    [a' = a·a2 + d·b2], [b' = b·a2 + e·b2], [c' = c·a2 + f·b2 + c2],
    [d' = a·d2 + d·e2], [e' = b·d2 + e·e2], [f' = c·d2 + f·e2 + f2] (each
    as the Float32Array keeps it), changes nothing else and returns
    [self]. *)
Theorem C1_multiply {F : Type} `{Number F} (h : heap F) (self other : Matrix3x2)
    (a b c d e f a2 b2 c2 d2 e2 f2 : F) :
  buffer self ≠ buffer other →
  h !! buffer self = Some (Float32Array [a; b; c; d; e; f]) →
  h !! buffer other = Some (Float32Array [a2; b2; c2; d2; e2; f2]) →
  Matrix3x2.multiply self other h =
    Some (self, <[buffer self := Float32Array
                   [fround (a * a2 + d * b2); fround (b * a2 + e * b2);
                    fround (c * a2 + f * b2 + c2);
                    fround (a * d2 + d * e2); fround (b * d2 + e * e2);
                    fround (c * d2 + f * e2 + f2)]%num]> h).
Proof. apply multiply_spec. Qed.

Lemma C1_multiply_witness :
  let h : heap float :=
    {[ 1%positive := Float32Array [1; 2; 3; 4; 5; 6]%float;
       2%positive := Float32Array [7; 8; 9; 10; 11; 12]%float ]} in
  Matrix3x2.multiply {| buffer := 1%positive |} {| buffer := 2%positive |} h =
    Some ({| buffer := 1%positive |},
          <[1%positive := Float32Array [39; 54; 78; 54; 75; 108]%float]> h).
Proof.
  intros h.
  exact (C1_multiply h {| buffer := 1%positive |} {| buffer := 2%positive |}
           1 2 3 4 5 6 7 8 9 10 11 12
           ltac:(discriminate) ltac:(reflexivity) ltac:(reflexivity))%float.
Defined.

(** C10: multiplying a matrix by itself is not multiplying it by an equal
    copy.  For [m = [1,1,0,1,0,0]] (a=1, b=1, c=0, d=1, e=0, f=0) and a
    distinct [mCopy] with the same coefficients, [m.multiply(m)] leaves
    [[2,2,0,1,1,0]] and [m.multiply(mCopy)] leaves [[2,1,0,1,1,0]]: the
    second statement of [multiply] reads [other.buffer[0]] after the
    first has overwritten it. *)
Theorem C10_multiply_self_differs :
  ∃ (h : heap float) (m mCopy : Matrix3x2) (l l_self l_copy : list float),
    buffer m ≠ buffer mCopy
    ∧ h !! buffer m = Some (Float32Array l)
    ∧ h !! buffer mCopy = Some (Float32Array l)
    ∧ Matrix3x2.multiply m m h = Some (m, <[buffer m := Float32Array l_self]> h)
    ∧ Matrix3x2.multiply m mCopy h = Some (m, <[buffer m := Float32Array l_copy]> h)
    ∧ l = [1; 1; 0; 1; 0; 0]%float
    ∧ l_self = [2; 2; 0; 1; 1; 0]%float
    ∧ l_copy = [2; 1; 0; 1; 1; 0]%float
    ∧ l_self ≠ l_copy.
Proof.
  exists {[ 1%positive := Float32Array [1; 1; 0; 1; 0; 0]%float;
            2%positive := Float32Array [1; 1; 0; 1; 0; 0]%float ]},
    {| buffer := 1%positive |}, {| buffer := 2%positive |}.
  exists [1; 1; 0; 1; 0; 0]%float, [2; 2; 0; 1; 1; 0]%float,
    [2; 1; 0; 1; 1; 0]%float.
  split; [discriminate|].
  split; [reflexivity|]. split; [reflexivity|].
  split.
  { erewrite multiply_self_spec by reflexivity. vm_compute. reflexivity. }
  split.
  { erewrite multiply_spec by (reflexivity || discriminate).
    vm_compute. reflexivity. }
  repeat split; float_list_neq.
Qed.

(** ** Applying the transform *)

(** C3: for a matrix [[a,b,c,d,e,f]] and a point [(x, y)], [apply] leaves
    [x' = a·x + b·y + c] and [y' = d·x + e·y + f] in the point, both from
    the coordinates the point had before the call; it mutates that point
    (and nothing else on the heap) and returns it. *)
Theorem C3_apply {F : Type} `{Number F} (h : heap F) (this : Matrix3x2) (vector : loc)
    (a b c d e f x y : F) :
  h !! buffer this = Some (Float32Array [a; b; c; d; e; f]) →
  h !! vector = Some (Vector2 x y) →
  Matrix3x2.apply this vector h =
    Some (vector, <[vector := Vector2 (a * x + b * y + c) (d * x + e * y + f)]> h)%num.
Proof. apply apply_spec. Qed.

Lemma C3_apply_witness :
  let h : heap float :=
    {[ 1%positive := Float32Array [1; 2; 3; 4; 5; 6]%float;
       2%positive := Vector2 7%float 8%float ]} in
  Matrix3x2.apply {| buffer := 1%positive |} 2%positive h =
    Some (2%positive, <[2%positive := Vector2 26%float 74%float]> h).
Proof.
  intros h.
  exact (C3_apply h {| buffer := 1%positive |} 2%positive 1 2 3 4 5 6 7 8
           ltac:(reflexivity) ltac:(reflexivity))%float.
Defined.

(** ** Translation and scaling *)

(** C7: [scale(factor)] multiplies each of the six coefficients, the
    offsets [c] and [f] included, by [factor] (the product as the
    Float32Array keeps it); and in binary64 arithmetic
    [identity().translate(2,0).scale(3)] applied to [(0,0)] gives
    [(6,0)]. *)
Theorem C7_scale :
  (∀ (F : Type) (N : Number F) (h : heap F) (this : Matrix3x2)
     (a b c d e f factor : F),
     h !! buffer this = Some (Float32Array [a; b; c; d; e; f]) →
     Matrix3x2.scale this factor h =
       Some (this, <[buffer this := Float32Array
                      [fround (a * factor); fround (b * factor);
                       fround (c * factor); fround (d * factor);
                       fround (e * factor); fround (f * factor)]]> h))%num
  ∧ (∀ (h : heap float) (p : loc),
       h !! p = Some (Vector2 0 0)%float →
       ∃ h', identity_translate_scale_apply 2%float 0%float 3%float p h = Some (p, h')
             ∧ h' !! p = Some (Vector2 6 0)%float).
Proof.
  split.
  - intros F N h this a b c d e f factor Hthis. by apply scale_spec.
  - intros h p Hp. unfold identity_translate_scale_apply.
    destruct (new_spec h) as [Hfresh Hnew]. cbv zeta in Hnew.
    assert (fresh (dom h) ≠ p) by congruence.
    erewrite bind_eq by exact Hnew.
    do 3 call_step.
    erewrite apply_spec by heap_lookup.
    eexists. split; [reflexivity|].
    rewrite lookup_insert_eq. reflexivity.
Qed.

Lemma C7_scale_witness :
  let h : heap float :=
    {[ 1%positive := Float32Array [1; 2; 3; 4; 5; 6]%float;
       2%positive := Vector2 0%float 0%float ]} in
  Matrix3x2.scale {| buffer := 1%positive |} 3%float h =
    Some ({| buffer := 1%positive |},
          <[1%positive := Float32Array [3; 6; 9; 12; 15; 18]%float]> h)
  ∧ ∃ h', identity_translate_scale_apply 2%float 0%float 3%float 2%positive h
            = Some (2%positive, h')
          ∧ h' !! 2%positive = Some (Vector2 6 0)%float.
Proof.
  intros h. split.
  - exact (proj1 C7_scale float _ h {| buffer := 1%positive |} 1 2 3 4 5 6 3
             ltac:(reflexivity))%float.
  - exact (proj2 C7_scale h 2%positive ltac:(reflexivity)).
Defined.

(** C6, as stated, fails in its example.  The angle the program passes is
    [Math.PI / 2], a binary64 number that is not π/2, and the host's
    [Math.cos] returns 6.123233995736766e-17 for it, not 0.  The program
    leaves [(6.123234262925839e-17, 1)] in the point (the cosine as the
    array keeps it), and its first coordinate is not [=== 0]. *)
Lemma C6_translate_counterexample :
  let h : heap float := {[ 1%positive := Vector2 0%float 0%float ]} in
  ∃ (h' : heap float) (x' y' : float),
    identity_rotate_translate_apply (H0 := Math_known)
      Math_PI_2 1%float 0%float 1%positive h = Some (1%positive, h')
    ∧ h' !! 1%positive = Some (Vector2 x' y')
    ∧ x' = 0x1.1a6264p-54%float
    ∧ y' = 1%float
    ∧ (x' =? 0)%float = false.
Proof.
  cbv zeta. eexists _, _, _.
  split; [vm_compute; reflexivity|].
  split; [vm_compute; reflexivity|].
  repeat split.
Qed.

(** C6, amended.  [translate(dx, dy)] changes the two offsets only,
    [c += a·dx + b·dy] and [f += d·dx + e·dy] (each sum as the
    Float32Array keeps it), and leaves [a], [b], [d], [e] as they were.
    On a host whose [Math.cos(Math.PI / 2)] is 6.123233995736766e-17 and
    whose [Math.sin(Math.PI / 2)] is 1,
    [identity().rotate(Math.PI / 2).translate(1, 0)] applied to [(0,0)]
    gives [(6.123234262925839e-17, 1)], which is [(0,1)] to within
    2^-53. *)
Theorem C6_translate :
  (∀ (F : Type) (N : Number F) (h : heap F) (this : Matrix3x2)
     (a b c d e f dx dy : F),
     h !! buffer this = Some (Float32Array [a; b; c; d; e; f]) →
     Matrix3x2.translate this dx dy h =
       Some (this, <[buffer this := Float32Array
                      [a; b; fround (c + (a * dx + b * dy));
                       d; e; fround (f + (d * dx + e * dy))]]> h))%num
  ∧ (∀ (Mo : MathObject float) (h : heap float) (p : loc),
       Math_cos Math_PI_2 = cos_PI_2 →
       Math_sin Math_PI_2 = 1%float →
       h !! p = Some (Vector2 0 0)%float →
       ∃ h', identity_rotate_translate_apply Math_PI_2 1%float 0%float p h
               = Some (p, h')
             ∧ h' !! p = Some (Vector2 0x1.1a6264p-54 1)%float
             ∧ within 0x1p-53 0x1.1a6264p-54 0 = true
             ∧ within 0x1p-53 1 1 = true).
Proof.
  split.
  - intros F N h this a b c d e f dx dy Hthis. by apply translate_spec.
  - intros Mo h p Hcos Hsin Hp. unfold identity_rotate_translate_apply.
    destruct (new_spec h) as [Hfresh Hnew]. cbv zeta in Hnew.
    assert (fresh (dom h) ≠ p) by congruence.
    erewrite bind_eq by exact Hnew.
    do 3 call_step.
    erewrite apply_spec by heap_lookup.
    eexists. split; [reflexivity|].
    rewrite lookup_insert_eq, Hcos, Hsin.
    split; [|split]; vm_compute; reflexivity.
Qed.

Lemma C6_translate_witness :
  let h : heap float :=
    {[ 1%positive := Float32Array [1; 2; 3; 4; 5; 6]%float;
       2%positive := Vector2 0%float 0%float ]} in
  Matrix3x2.translate {| buffer := 1%positive |} 7%float 8%float h =
    Some ({| buffer := 1%positive |},
          <[1%positive := Float32Array [1; 2; 26; 4; 5; 74]%float]> h)
  ∧ ∃ h', identity_rotate_translate_apply (H0 := Math_known)
            Math_PI_2 1%float 0%float 2%positive h = Some (2%positive, h')
          ∧ h' !! 2%positive = Some (Vector2 0x1.1a6264p-54 1)%float
          ∧ within 0x1p-53 0x1.1a6264p-54 0 = true
          ∧ within 0x1p-53 1 1 = true.
Proof.
  intros h. split.
  - exact (proj1 C6_translate float _ h {| buffer := 1%positive |} 1 2 3 4 5 6 7 8
             ltac:(reflexivity))%float.
  - exact (proj2 C6_translate Math_known h 2%positive
             ltac:(reflexivity) ltac:(reflexivity) ltac:(reflexivity)).
Defined.

(** ** Composition order *)





(** The bound cannot be dropped: with the translations by [2^24], by 1
    and by [-2^24], the product [T1.multiply(T2)] stores the offset
    [2^24 + 1] as [2^24], and the chained transform sends [(0,0)] to
    [(0,0)], where the three applications, which are not rounded to
    binary32, give [(1,0)]. *)
Example multiply_chain_rounds :
  let h : heap float :=
    {[ 1%positive := Float32Array [1; 0; 16777216; 0; 1; 0]%float;
       2%positive := Float32Array [1; 0; 1; 0; 1; 0]%float;
       3%positive := Float32Array [1; 0; -16777216; 0; 1; 0]%float;
       4%positive := Vector2 0%float 0%float ]} in
  let T1 := {| buffer := 1%positive |} in
  let T2 := {| buffer := 2%positive |} in
  let T3 := {| buffer := 3%positive |} in
  ∃ h1 h2,
    multiply_chain_apply T1 T2 T3 4%positive h = Some (4%positive, h1)
    ∧ h1 !! 4%positive = Some (Vector2 0 0)%float
    ∧ apply_T1_T2_T3 T1 T2 T3 4%positive h = Some (4%positive, h2)
    ∧ h2 !! 4%positive = Some (Vector2 1 0)%float.
Proof.
  cbv zeta. eexists _, _.
  split; [vm_compute; reflexivity|].
  split; [vm_compute; reflexivity|].
  split; vm_compute; reflexivity.
Qed.

(** ** Inversion *)




(** A clone is a fresh object with the coefficients of the original. *)
Lemma clone_spec {F : Type} `{Number F} (h : heap F) (this : Matrix3x2)
    (a b c d e f : F) :
  h !! buffer this = Some (Float32Array [a; b; c; d; e; f]) →
  let l := fresh (dom h) in
  h !! l = None
  ∧ clone this h = Some ({| buffer := l |}, <[l := Float32Array [a; b; c; d; e; f]]> h).
Proof.
  intros Hthis l. destruct (new_spec h) as [Hfresh Hnew]. cbv zeta in Hnew.
  split; [done|]. unfold clone.
  erewrite bind_eq by exact Hnew.
  erewrite set_spec; [|heap_lookup|reflexivity|].
  - cbn [buffer]. by rewrite insert_insert_eq.
  - rewrite lookup_insert_ne; [done|]. cbn [buffer]. congruence.
Qed.





(** In binary64 the round trip through [T = [2,0,1,0,4,3]] returns
    [(5,7)] exactly: every intermediate value is a binary32 number. *)
Example inverse_roundtrip_binary64 :
  let h : heap float :=
    {[ 1%positive := Float32Array [2; 0; 1; 0; 4; 3]%float;
       2%positive := Vector2 5%float 7%float ]} in
  ∃ h', inverse_roundtrip {| buffer := 1%positive |} 2%positive h
          = Some (2%positive, h')
        ∧ h' !! 2%positive = Some (Vector2 5 7)%float.
Proof. cbv zeta. eexists. split; vm_compute; reflexivity. Qed.

(** ** Singular matrices in binary64 *)

Lemma fround_keeps_nonfinite (x : float) :
  SF_nonfinite (Prim2SF x) = true → SF_nonfinite (Prim2SF (Math_fround x)) = true.
Proof. intros Hx. by rewrite fround_nonfinite. Qed.

(** Three non-finite coefficients give a non-finite coordinate, whatever
    the point. *)
Lemma affine_nonfinite (a b c x y : float) :
  SF_nonfinite (Prim2SF a) = true →
  SF_nonfinite (Prim2SF b) = true →
  SF_nonfinite (Prim2SF c) = true →
  is_finite (a * x + b * y + c)%float = false.
Proof.
  intros Ha Hb Hc. apply is_finite_nonfinite.
  repeat apply add_nonfinite; try done; by apply mul_nonfinite_l.
Qed.

(** [invert] on a matrix whose determinant compares equal to zero. *)
Lemma invert_singular (h : heap float) (this : Matrix3x2) (a b c d e f : float) :
  h !! buffer this = Some (Float32Array [a; b; c; d; e; f]) →
  (a * e - b * d =? 0)%float = true →
  invert_poisons this h.
Proof.
  intros Hthis Hdet. apply div_one_zero in Hdet.
  set (i := (1 / (a * e - b * d))%float) in Hdet.
  assert (Hcoef : ∀ v, SF_nonfinite (Prim2SF (Math_fround (i * v)%float)) = true).
  { intros v. by apply fround_keeps_nonfinite, mul_nonfinite_l. }
  eexists _, _, _, _, _, _. split; [by apply invert_spec|].
  split.
  - repeat constructor; apply is_finite_nonfinite, Hcoef.
  - intros h' p x y Hthis' Hp. eexists _, _.
    split; [by eapply apply_spec|].
    split; apply affine_nonfinite; apply Hcoef.
Qed.

(** In binary64, inverting [[1,0,2,0,0,3]] stores
    [[NaN, NaN, NaN, NaN, Infinity, -Infinity]]. *)
Example invert_singular_values :
  let h : heap float :=
    {[ 1%positive := Float32Array [1; 0; 2; 0; 0; 3]%float ]} in
  Matrix3x2.invert {| buffer := 1%positive |} h =
    Some ({| buffer := 1%positive |},
          <[1%positive := Float32Array
              [nan; nan; nan; nan; infinity; neg_infinity]]> h).
Proof. vm_compute. reflexivity. Qed.

(** C5: [invert] returns normally on every six-element matrix; when the
    determinant [a·e − b·d], computed in binary64, equals zero, none of
    the six coefficients it stores is finite, and every later [apply] of
    that matrix leaves two non-finite coordinates in the point, whatever
    the point was; [a=1, b=0, d=0, e=0] is such a matrix, for every [c]
    and [f]. *)
Theorem C5_invert_singular :
  (∀ (F : Type) (N : Number F) (h : heap F) (this : Matrix3x2) (a b c d e f : F),
     h !! buffer this = Some (Float32Array [a; b; c; d; e; f]) →
     ∃ h', Matrix3x2.invert this h = Some (this, h'))
  ∧ (∀ (h : heap float) (this : Matrix3x2) (a b c d e f : float),
       h !! buffer this = Some (Float32Array [a; b; c; d; e; f]) →
       (a * e - b * d =? 0)%float = true →
       invert_poisons this h)
  ∧ (∀ (h : heap float) (this : Matrix3x2) (c f : float),
       h !! buffer this = Some (Float32Array [1; 0; c; 0; 0; f]%float) →
       invert_poisons this h).
Proof.
  split; [|split].
  - intros F N h this a b c d e f Hthis. eexists. by apply invert_spec.
  - apply invert_singular.
  - intros h this c f Hthis. by eapply invert_singular.
Qed.

Lemma C5_invert_singular_witness :
  let h : heap float :=
    {[ 1%positive := Float32Array [1; 0; 2; 0; 0; 3]%float ]} in
  invert_poisons {| buffer := 1%positive |} h.
Proof.
  intros h.
  exact (proj1 (proj2 C5_invert_singular) h {| buffer := 1%positive |} 1 0 2 0 0 3
           ltac:(reflexivity) ltac:(reflexivity))%float.
Defined.

(** ** Copies are independent *)

(** Take a method apart into its loads and stores, collecting what each
    leaves alone at the location [l]. *)
Ltac frame_steps Hrun Hne :=
  repeat
    (let Hm := fresh "Hm" in
     apply bind_Some in Hrun as (? & ? & Hm & Hrun);
     first
       [ apply load_heap in Hm; subst
       | apply (store_frame _ _ _ _ _ _ _) with (1 := Hm) in Hne as ?
       | apply (typed_array_set_frame _ _ _ _ _ _) with (1 := Hm) in Hne as ? ]).

(** A mutating method writes to the buffer of its receiver only. *)
Lemma mutate_frame {F : Type} `{Number F} `{MathObject F} (h h' : heap F)
    (this r : Matrix3x2) (call : mutation F) (l : loc) :
  mutate this call h = Some (r, h') → l ≠ buffer this → h' !! l = h !! l.
Proof.
  intros Hrun Hne.
  destruct call; cbn [mutate] in Hrun.
  all: unfold Matrix3x2.set, Matrix3x2.identity, Matrix3x2.translate,
         Matrix3x2.translateAbsolute, Matrix3x2.rotate, Matrix3x2.scale,
         Matrix3x2.multiply, Matrix3x2.invert in Hrun; cbv zeta in Hrun.
  all: frame_steps Hrun Hne.
  all: injection Hrun as _ <-; congruence.
Qed.

(** C9: after [B.set(A)] on two distinct matrices, [B] holds the six
    coefficients of [A], [A] is unchanged, and no later mutation of [A]
    reaches [B]: after [A.translate(dx, dy)] (which returns normally), and
    after any call of a mutating method on [A], the buffer of [B] still
    holds those six coefficients. *)
Theorem C9_set_independent {F : Type} `{Number F} `{MathObject F} (h : heap F)
    (A B : Matrix3x2) (a b c d e f : F) (lB : list F) :
  buffer A ≠ buffer B →
  h !! buffer A = Some (Float32Array [a; b; c; d; e; f]) →
  h !! buffer B = Some (Float32Array lB) →
  length lB = 6 →
  ∃ h1,
    Matrix3x2.set B A h = Some (B, h1)
    ∧ h1 !! buffer B = Some (Float32Array [a; b; c; d; e; f])
    ∧ h1 !! buffer A = Some (Float32Array [a; b; c; d; e; f])
    ∧ (∀ dx dy : F, ∃ h2,
         Matrix3x2.translate A dx dy h1 = Some (A, h2)
         ∧ h2 !! buffer B = Some (Float32Array [a; b; c; d; e; f]))
    ∧ (∀ (call : mutation F) (r : Matrix3x2) (h2 : heap F),
         mutate A call h1 = Some (r, h2) →
         h2 !! buffer B = Some (Float32Array [a; b; c; d; e; f])).
Proof.
  intros Hne HA HB Hlen.
  eexists. split; [by eapply set_spec|].
  split; [by rewrite lookup_insert_eq|].
  split; [by rewrite lookup_insert_ne|].
  split.
  - intros dx dy. eexists.
    split; [eapply translate_spec; by rewrite lookup_insert_ne|].
    rewrite lookup_insert_ne by done. by rewrite lookup_insert_eq.
  - intros call r h2 Hrun.
    erewrite mutate_frame by (done || eauto).
    by rewrite lookup_insert_eq.
Qed.


Lemma C9_set_independent_witness :
  let h : heap float :=
    {[ 1%positive := Float32Array [1; 2; 3; 4; 5; 6]%float;
       2%positive := Float32Array [0; 0; 0; 0; 0; 0]%float ]} in
  let A := {| buffer := 1%positive |} in
  let B := {| buffer := 2%positive |} in
  ∃ h1,
    Matrix3x2.set B A h = Some (B, h1)
    ∧ h1 !! buffer B = Some (Float32Array [1; 2; 3; 4; 5; 6]%float)
    ∧ h1 !! buffer A = Some (Float32Array [1; 2; 3; 4; 5; 6]%float)
    ∧ (∀ dx dy : float, ∃ h2,
         Matrix3x2.translate A dx dy h1 = Some (A, h2)
         ∧ h2 !! buffer B = Some (Float32Array [1; 2; 3; 4; 5; 6]%float))
    ∧ (∀ (call : mutation float) (r : Matrix3x2) (h2 : heap float),
         mutate (H0 := Math_known) A call h1 = Some (r, h2) →
         h2 !! buffer B = Some (Float32Array [1; 2; 3; 4; 5; 6]%float)).
Proof.
  intros h A B.
  exact (C9_set_independent (H0 := Math_known) h A B 1 2 3 4 5 6 [0; 0; 0; 0; 0; 0]
           ltac:(discriminate) ltac:(reflexivity) ltac:(reflexivity)
           ltac:(reflexivity))%float.
Defined.

(** * Further properties of the methods *)

(** One call of any method on buffers whose six entries are known. *)
Ltac run_call :=
  first
    [ call_step
    | cbn [buffer];
      first
        [ erewrite (bind_eq (Matrix3x2.translateAbsolute _ _ _))
            by (eapply translateAbsolute_spec; heap_lookup)
        | erewrite (bind_eq (Matrix3x2.multiply _ _))
            by (eapply multiply_spec; [congruence | heap_lookup..]) ];
      cbn [buffer]; rewrite ?insert_insert_eq ].


(** ** What each composing method does to the mapping

    On integer coefficients and points small enough that no operation
    and no store rounds, the methods compose as the exact transforms
    do. *)

(** X2: [translate] composes on the input side: after
    [translate(dx, dy)], [apply] sends [(x, y)] where the matrix used to
    send [(x + dx, y + dy)]. *)
Theorem X2_translate_apply (h : heap float) (this : Matrix3x2) (p : loc)
    (a b c d e f dx dy x y : Z) :
  h !! buffer this = Some (Float32Array (integer <$> [a; b; c; d; e; f])) →
  h !! p = Some (Vector2 (integer x) (integer y)) →
  Forall (λ n, Z.abs n <= 1000)%Z [a; b; c; d; e; f; dx; dy; x; y] →
  ∃ (h' : heap float) (x' y' : float),
    (m ← Matrix3x2.translate this (integer dx) (integer dy);
     Matrix3x2.apply m p) h = Some (p, h')
    ∧ h' !! p = Some (Vector2 x' y')
    ∧ (x' =? integer (a * (x + dx) + b * (y + dy) + c))%float = true
    ∧ (y' =? integer (d * (x + dx) + e * (y + dy) + f))%float = true.
Proof.
  intros Hthis Hp Hb. bounds Hb. cbn [fmap list_fmap] in Hthis.
  assert (p ≠ buffer this) by congruence.
  run_call. erewrite apply_spec by heap_lookup.
  eexists _, _, _. split; [reflexivity|].
  rewrite lookup_insert_eq. split; [reflexivity|].
  split; is_integer; ring.
Qed.

Lemma X2_translate_apply_witness :
  let h : heap float :=
    {[ 1%positive := Float32Array (integer <$> [2; 3; 4; 5; 6; 7]%Z);
       2%positive := Vector2 (integer 8) (integer 9) ]} in
  ∃ (h' : heap float) (x' y' : float),
    (m ← Matrix3x2.translate {| buffer := 1%positive |} (integer 10) (integer 11);
     Matrix3x2.apply m 2%positive) h = Some (2%positive, h')
    ∧ h' !! 2%positive = Some (Vector2 x' y')
    ∧ (x' =? integer (2 * (8 + 10) + 3 * (9 + 11) + 4))%float = true
    ∧ (y' =? integer (5 * (8 + 10) + 6 * (9 + 11) + 7))%float = true.
Proof.
  intros h.
  exact (X2_translate_apply h {| buffer := 1%positive |} 2%positive
           2 3 4 5 6 7 10 11 8 9 ltac:(reflexivity) ltac:(reflexivity)
           ltac:(repeat constructor; discriminate))%Z.
Defined.

(** X3: [translateAbsolute] composes on the output side: after
    [translateAbsolute(dx, dy)], [apply] returns what the matrix used to
    return, moved by [(dx, dy)], whatever its linear part. *)
Theorem X3_translateAbsolute_apply (h : heap float) (this : Matrix3x2) (p : loc)
    (a b c d e f dx dy x y : Z) :
  h !! buffer this = Some (Float32Array (integer <$> [a; b; c; d; e; f])) →
  h !! p = Some (Vector2 (integer x) (integer y)) →
  Forall (λ n, Z.abs n <= 1000)%Z [a; b; c; d; e; f; dx; dy; x; y] →
  ∃ (h' : heap float) (x' y' : float),
    (m ← Matrix3x2.translateAbsolute this (integer dx) (integer dy);
     Matrix3x2.apply m p) h = Some (p, h')
    ∧ h' !! p = Some (Vector2 x' y')
    ∧ (x' =? integer ((a * x + b * y + c) + dx))%float = true
    ∧ (y' =? integer ((d * x + e * y + f) + dy))%float = true.
Proof.
  intros Hthis Hp Hb. bounds Hb. cbn [fmap list_fmap] in Hthis.
  assert (p ≠ buffer this) by congruence.
  run_call. erewrite apply_spec by heap_lookup.
  eexists _, _, _. split; [reflexivity|].
  rewrite lookup_insert_eq. split; [reflexivity|].
  split; is_integer; ring.
Qed.

Lemma X3_translateAbsolute_apply_witness :
  let h : heap float :=
    {[ 1%positive := Float32Array (integer <$> [2; 3; 4; 5; 6; 7]%Z);
       2%positive := Vector2 (integer 8) (integer 9) ]} in
  ∃ (h' : heap float) (x' y' : float),
    (m ← Matrix3x2.translateAbsolute {| buffer := 1%positive |}
           (integer 10) (integer 11);
     Matrix3x2.apply m 2%positive) h = Some (2%positive, h')
    ∧ h' !! 2%positive = Some (Vector2 x' y')
    ∧ (x' =? integer ((2 * 8 + 3 * 9 + 4) + 10))%float = true
    ∧ (y' =? integer ((5 * 8 + 6 * 9 + 7) + 11))%float = true.
Proof.
  intros h.
  exact (X3_translateAbsolute_apply h {| buffer := 1%positive |} 2%positive
           2 3 4 5 6 7 10 11 8 9 ltac:(reflexivity) ltac:(reflexivity)
           ltac:(repeat constructor; discriminate))%Z.
Defined.



(** X7: [scale] composes on the output side: after [scale(k)], [apply]
    returns [k] times what the matrix used to return, offsets included. *)
Theorem X7_scale_apply (h : heap float) (this : Matrix3x2) (p : loc)
    (a b c d e f k x y : Z) :
  h !! buffer this = Some (Float32Array (integer <$> [a; b; c; d; e; f])) →
  h !! p = Some (Vector2 (integer x) (integer y)) →
  Forall (λ n, Z.abs n <= 1000)%Z [a; b; c; d; e; f; k; x; y] →
  ∃ (h' : heap float) (x' y' : float),
    (m ← Matrix3x2.scale this (integer k); Matrix3x2.apply m p) h = Some (p, h')
    ∧ h' !! p = Some (Vector2 x' y')
    ∧ (x' =? integer (k * (a * x + b * y + c)))%float = true
    ∧ (y' =? integer (k * (d * x + e * y + f)))%float = true.
Proof.
  intros Hthis Hp Hb. bounds Hb. cbn [fmap list_fmap] in Hthis.
  assert (p ≠ buffer this) by congruence.
  run_call. erewrite apply_spec by heap_lookup.
  eexists _, _, _. split; [reflexivity|].
  rewrite lookup_insert_eq. split; [reflexivity|].
  split; is_integer; ring.
Qed.

Lemma X7_scale_apply_witness :
  let h : heap float :=
    {[ 1%positive := Float32Array (integer <$> [2; 3; 4; 5; 6; 7]%Z);
       2%positive := Vector2 (integer 8) (integer 9) ]} in
  ∃ (h' : heap float) (x' y' : float),
    (m ← Matrix3x2.scale {| buffer := 1%positive |} (integer 10);
     Matrix3x2.apply m 2%positive) h = Some (2%positive, h')
    ∧ h' !! 2%positive = Some (Vector2 x' y')
    ∧ (x' =? integer (10 * (2 * 8 + 3 * 9 + 4)))%float = true
    ∧ (y' =? integer (10 * (5 * 8 + 6 * 9 + 7)))%float = true.
Proof.
  intros h.
  exact (X7_scale_apply h {| buffer := 1%positive |} 2%positive
           2 3 4 5 6 7 10 8 9 ltac:(reflexivity) ltac:(reflexivity)
           ltac:(repeat constructor; discriminate))%Z.
Defined.

(** ** Products and inverses *)

(** X9: a matrix holding the identity coefficients is neutral for
    [multiply] on both sides: as argument it leaves the coefficients of
    the receiver as they were, as receiver it takes the coefficients of
    the argument. *)
Theorem X9_multiply_identity (h : heap float) (this one : Matrix3x2)
    (a b c d e f : Z) :
  buffer this ≠ buffer one →
  h !! buffer this = Some (Float32Array (integer <$> [a; b; c; d; e; f])) →
  h !! buffer one = Some (Float32Array [1; 0; 0; 0; 1; 0]%float) →
  Forall (λ n, Z.abs n <= 1000)%Z [a; b; c; d; e; f] →
  (∃ l : list float,
     Matrix3x2.multiply this one h
       = Some (this, <[buffer this := Float32Array l]> h)
     ∧ integers l [a; b; c; d; e; f])
  ∧ (∃ l : list float,
       Matrix3x2.multiply one this h
         = Some (one, <[buffer one := Float32Array l]> h)
       ∧ integers l [a; b; c; d; e; f]).
Proof.
  intros Hne Hthis Hone Hb. bounds Hb. cbn [fmap list_fmap] in Hthis.
  split.
  - eexists. split; [by eapply multiply_spec|]. agree; ring.
  - eexists. split; [by eapply multiply_spec|]. agree; ring.
Qed.

Lemma X9_multiply_identity_witness :
  let h : heap float :=
    {[ 1%positive := Float32Array (integer <$> [2; 3; 4; 5; 6; 7]%Z);
       2%positive := Float32Array [1; 0; 0; 0; 1; 0]%float ]} in
  let this := {| buffer := 1%positive |} in
  let one := {| buffer := 2%positive |} in
  (∃ l : list float,
     Matrix3x2.multiply this one h
       = Some (this, <[buffer this := Float32Array l]> h)
     ∧ integers l [2; 3; 4; 5; 6; 7]%Z)
  ∧ (∃ l : list float,
       Matrix3x2.multiply one this h
         = Some (one, <[buffer one := Float32Array l]> h)
       ∧ integers l [2; 3; 4; 5; 6; 7]%Z).
Proof.
  intros h this one.
  exact (X9_multiply_identity h this one 2 3 4 5 6 7
           ltac:(discriminate) ltac:(reflexivity) ltac:(reflexivity)
           ltac:(repeat constructor; discriminate))%Z.
Defined.

(** X10: [multiply] is associative: for three distinct matrices,
    [T1.multiply(T2).multiply(T3)] and [T1.multiply(T2.multiply(T3))]
    leave the same six coefficients in [T1]. *)
Theorem X10_multiply_assoc (h : heap float) (T1 T2 T3 : Matrix3x2)
    (a1 b1 c1 d1 e1 f1 a2 b2 c2 d2 e2 f2 a3 b3 c3 d3 e3 f3 : Z) :
  buffer T1 ≠ buffer T2 →
  buffer T1 ≠ buffer T3 →
  buffer T2 ≠ buffer T3 →
  h !! buffer T1 = Some (Float32Array (integer <$> [a1; b1; c1; d1; e1; f1])) →
  h !! buffer T2 = Some (Float32Array (integer <$> [a2; b2; c2; d2; e2; f2])) →
  h !! buffer T3 = Some (Float32Array (integer <$> [a3; b3; c3; d3; e3; f3])) →
  Forall (λ n, Z.abs n <= 100)%Z
    [a1; b1; c1; d1; e1; f1; a2; b2; c2; d2; e2; f2; a3; b3; c3; d3; e3; f3] →
  ∃ (h1 h2 : heap float) (l1 l2 : list float),
    (m ← Matrix3x2.multiply T1 T2; Matrix3x2.multiply m T3) h = Some (T1, h1)
    ∧ (m ← Matrix3x2.multiply T2 T3; Matrix3x2.multiply T1 m) h = Some (T1, h2)
    ∧ h1 !! buffer T1 = Some (Float32Array l1)
    ∧ h2 !! buffer T1 = Some (Float32Array l2)
    ∧ same_numbers l1 l2.
Proof.
  intros H12 H13 H23 HT1 HT2 HT3 Hb. bounds Hb.
  cbn [fmap list_fmap] in HT1, HT2, HT3.
  run_call. erewrite multiply_spec; [|done|heap_lookup..].
  run_call. erewrite multiply_spec; [|done|heap_lookup..].
  eexists _, _, _, _.
  split; [reflexivity|]. split; [reflexivity|].
  rewrite ?insert_insert_eq, !lookup_insert_eq.
  split; [reflexivity|]. split; [reflexivity|].
  agree; ring.
Qed.

Lemma X10_multiply_assoc_witness :
  let h : heap float :=
    {[ 1%positive := Float32Array (integer <$> [2; 3; 4; 5; 6; 7]%Z);
       2%positive := Float32Array (integer <$> [1; 2; 0; 0; 1; 1]%Z);
       3%positive := Float32Array (integer <$> [0; 1; 5; 1; 0; 6]%Z) ]} in
  let T1 := {| buffer := 1%positive |} in
  let T2 := {| buffer := 2%positive |} in
  let T3 := {| buffer := 3%positive |} in
  ∃ (h1 h2 : heap float) (l1 l2 : list float),
    (m ← Matrix3x2.multiply T1 T2; Matrix3x2.multiply m T3) h = Some (T1, h1)
    ∧ (m ← Matrix3x2.multiply T2 T3; Matrix3x2.multiply T1 m) h = Some (T1, h2)
    ∧ h1 !! buffer T1 = Some (Float32Array l1)
    ∧ h2 !! buffer T1 = Some (Float32Array l2)
    ∧ same_numbers l1 l2.
Proof.
  intros h T1 T2 T3.
  exact (X10_multiply_assoc h T1 T2 T3 2 3 4 5 6 7 1 2 0 0 1 1 0 1 5 1 0 6
           ltac:(discriminate) ltac:(discriminate) ltac:(discriminate)
           ltac:(reflexivity) ltac:(reflexivity) ltac:(reflexivity)
           ltac:(repeat constructor; discriminate))%Z.
Defined.

(** X11: inverting twice a matrix with integer coefficients whose
    determinant is 1 or -1 puts its six coefficients back. *)
Theorem X11_invert_invert (h : heap float) (this : Matrix3x2) (a b c d e f : Z) :
  h !! buffer this = Some (Float32Array (integer <$> [a; b; c; d; e; f])) →
  Forall (λ n, Z.abs n <= 100)%Z [a; b; c; d; e; f] →
  (a * e - b * d = 1 ∨ a * e - b * d = -1)%Z →
  ∃ l : list float,
    (m ← Matrix3x2.invert this; Matrix3x2.invert m) h
      = Some (this, <[buffer this := Float32Array l]> h)
    ∧ integers l [a; b; c; d; e; f].
Proof.
  intros Hthis Hb Hdet. bounds Hb. cbn [fmap list_fmap] in Hthis.
  run_call. erewrite invert_spec by heap_lookup.
  rewrite insert_insert_eq. eexists. split; [reflexivity|].
  set (det := (a * e - b * d)%Z) in *.
  assert (Hdet' : (det * e * (det * a) - det * - b * (det * - d) = 1
                   ∨ det * e * (det * a) - det * - b * (det * - d) = -1)%Z).
  { replace (det * e * (det * a) - det * - b * (det * - d))%Z with det; [done|].
    subst det. clear -Hdet. symmetry. unit_det Hdet. }
  subst det. agree; clear -Hdet; unit_det Hdet.
Qed.

Lemma X11_invert_invert_witness :
  let h : heap float :=
    {[ 1%positive := Float32Array (integer <$> [2; 1; 3; 1; 1; 4]%Z) ]} in
  let this := {| buffer := 1%positive |} in
  ∃ l : list float,
    (m ← Matrix3x2.invert this; Matrix3x2.invert m) h
      = Some (this, <[buffer this := Float32Array l]> h)
    ∧ integers l [2; 1; 3; 1; 1; 4]%Z.
Proof.
  intros h this.
  exact (X11_invert_invert h this 2 1 3 1 1 4
           ltac:(reflexivity) ltac:(repeat constructor; discriminate)
           ltac:(left; reflexivity))%Z.
Defined.

(** X12: multiplying a matrix with integer coefficients whose
    determinant is 1 or -1 by the inverse of a copy of itself,
    [T.multiply(T.clone().invert())], leaves the identity coefficients
    in [T]. *)
Theorem X12_multiply_by_inverse (h : heap float) (T : Matrix3x2) (a b c d e f : Z) :
  h !! buffer T = Some (Float32Array (integer <$> [a; b; c; d; e; f])) →
  Forall (λ n, Z.abs n <= 1000)%Z [a; b; c; d; e; f] →
  (a * e - b * d = 1 ∨ a * e - b * d = -1)%Z →
  ∃ (h' : heap float) (l : list float),
    (arg ← (c ← clone T; Matrix3x2.invert c); Matrix3x2.multiply T arg) h
      = Some (T, h')
    ∧ h' !! buffer T = Some (Float32Array l)
    ∧ integers l [1; 0; 0; 0; 1; 0]%Z.
Proof.
  intros HT Hb Hdet. bounds Hb. cbn [fmap list_fmap] in HT.
  destruct (clone_spec h T _ _ _ _ _ _ HT) as [Hfresh Hclone].
  cbv zeta in Hclone. set (l := fresh (dom h)) in *.
  assert (buffer T ≠ l) by congruence.
  erewrite (bind_eq (c ← clone T; Matrix3x2.invert c)).
  2:{ erewrite bind_eq by exact Hclone.
      erewrite invert_spec by heap_lookup.
      cbn [buffer]. rewrite insert_insert_eq. reflexivity. }
  erewrite multiply_spec; [|cbn [buffer]; done|heap_lookup..].
  eexists _, _. split; [reflexivity|].
  rewrite lookup_insert_eq. split; [reflexivity|].
  agree; clear -Hdet; unit_det Hdet.
Qed.

Lemma X12_multiply_by_inverse_witness :
  let h : heap float :=
    {[ 1%positive := Float32Array (integer <$> [2; 1; 3; 1; 1; 4]%Z) ]} in
  let T := {| buffer := 1%positive |} in
  ∃ (h' : heap float) (l : list float),
    (arg ← (c ← clone T; Matrix3x2.invert c); Matrix3x2.multiply T arg) h
      = Some (T, h')
    ∧ h' !! buffer T = Some (Float32Array l)
    ∧ integers l [1; 0; 0; 0; 1; 0]%Z.
Proof.
  intros h T.
  exact (X12_multiply_by_inverse h T 2 1 3 1 1 4
           ltac:(reflexivity) ltac:(repeat constructor; discriminate)
           ltac:(left; reflexivity))%Z.
Defined.

(** ** Translations and scales add up *)

(** X21: two translations of the same kind add up: [translate(dx1, dy1)]
    followed by [translate(dx2, dy2)] leaves the coefficients that
    [translate(dx1 + dx2, dy1 + dy2)] leaves, and likewise for
    [translateAbsolute]. *)
Theorem X21_translations_add (h : heap float) (this : Matrix3x2)
    (a b c d e f dx1 dy1 dx2 dy2 : Z) :
  h !! buffer this = Some (Float32Array (integer <$> [a; b; c; d; e; f])) →
  Forall (λ n, Z.abs n <= 1000)%Z [a; b; c; d; e; f; dx1; dy1; dx2; dy2] →
  (∃ l1 l2 : list float,
     (m ← Matrix3x2.translate this (integer dx1) (integer dy1);
      Matrix3x2.translate m (integer dx2) (integer dy2)) h
       = Some (this, <[buffer this := Float32Array l1]> h)
     ∧ Matrix3x2.translate this (integer dx1 + integer dx2)%float
         (integer dy1 + integer dy2)%float h
       = Some (this, <[buffer this := Float32Array l2]> h)
     ∧ same_numbers l1 l2)
  ∧ (∃ l1 l2 : list float,
       (m ← Matrix3x2.translateAbsolute this (integer dx1) (integer dy1);
        Matrix3x2.translateAbsolute m (integer dx2) (integer dy2)) h
         = Some (this, <[buffer this := Float32Array l1]> h)
       ∧ Matrix3x2.translateAbsolute this (integer dx1 + integer dx2)%float
           (integer dy1 + integer dy2)%float h
         = Some (this, <[buffer this := Float32Array l2]> h)
       ∧ same_numbers l1 l2).
Proof.
  intros Hthis Hb. bounds Hb. cbn [fmap list_fmap] in Hthis. split.
  - run_call. do 2 erewrite translate_spec by heap_lookup.
    rewrite insert_insert_eq. eexists _, _.
    split; [reflexivity|]. split; [reflexivity|]. agree; ring.
  - run_call. do 2 erewrite translateAbsolute_spec by heap_lookup.
    rewrite insert_insert_eq. eexists _, _.
    split; [reflexivity|]. split; [reflexivity|]. agree; ring.
Qed.

Lemma X21_translations_add_witness :
  let h : heap float :=
    {[ 1%positive := Float32Array (integer <$> [2; 3; 4; 5; 6; 7]%Z) ]} in
  let this := {| buffer := 1%positive |} in
  (∃ l1 l2 : list float,
     (m ← Matrix3x2.translate this (integer 1) (integer 2);
      Matrix3x2.translate m (integer 3) (integer 4)) h
       = Some (this, <[buffer this := Float32Array l1]> h)
     ∧ Matrix3x2.translate this (integer 1 + integer 3)%float
         (integer 2 + integer 4)%float h
       = Some (this, <[buffer this := Float32Array l2]> h)
     ∧ same_numbers l1 l2)
  ∧ (∃ l1 l2 : list float,
       (m ← Matrix3x2.translateAbsolute this (integer 1) (integer 2);
        Matrix3x2.translateAbsolute m (integer 3) (integer 4)) h
         = Some (this, <[buffer this := Float32Array l1]> h)
       ∧ Matrix3x2.translateAbsolute this (integer 1 + integer 3)%float
           (integer 2 + integer 4)%float h
         = Some (this, <[buffer this := Float32Array l2]> h)
       ∧ same_numbers l1 l2).
Proof.
  intros h this.
  exact (X21_translations_add h this 2 3 4 5 6 7 1 2 3 4 ltac:(reflexivity)
           ltac:(repeat constructor; discriminate))%Z.
Defined.

(** X22: two scales multiply: [scale(k1)] followed by [scale(k2)] leaves
    the coefficients that [scale(k1 * k2)] leaves. *)
Theorem X22_scales_multiply (h : heap float) (this : Matrix3x2)
    (a b c d e f k1 k2 : Z) :
  h !! buffer this = Some (Float32Array (integer <$> [a; b; c; d; e; f])) →
  Forall (λ n, Z.abs n <= 100)%Z [a; b; c; d; e; f; k1; k2] →
  ∃ l1 l2 : list float,
    (m ← Matrix3x2.scale this (integer k1); Matrix3x2.scale m (integer k2)) h
      = Some (this, <[buffer this := Float32Array l1]> h)
    ∧ Matrix3x2.scale this (integer k1 * integer k2)%float h
      = Some (this, <[buffer this := Float32Array l2]> h)
    ∧ same_numbers l1 l2.
Proof.
  intros Hthis Hb. bounds Hb. cbn [fmap list_fmap] in Hthis.
  run_call. do 2 erewrite scale_spec by heap_lookup.
  rewrite insert_insert_eq. eexists _, _.
  split; [reflexivity|]. split; [reflexivity|]. agree; ring.
Qed.

Lemma X22_scales_multiply_witness :
  let h : heap float :=
    {[ 1%positive := Float32Array (integer <$> [2; 3; 4; 5; 6; 7]%Z) ]} in
  let this := {| buffer := 1%positive |} in
  ∃ l1 l2 : list float,
    (m ← Matrix3x2.scale this (integer 2); Matrix3x2.scale m (integer 3)) h
      = Some (this, <[buffer this := Float32Array l1]> h)
    ∧ Matrix3x2.scale this (integer 2 * integer 3)%float h
      = Some (this, <[buffer this := Float32Array l2]> h)
    ∧ same_numbers l1 l2.
Proof.
  intros h this.
  exact (X22_scales_multiply h this 2 3 4 5 6 7 2 3 ltac:(reflexivity)
           ltac:(repeat constructor; discriminate))%Z.
Defined.

(** X23: the two translations differ by the linear part only: on a
    matrix whose linear part is the identity ([a = e = 1], [b = d = 0])
    [translate(dx, dy)] and [translateAbsolute(dx, dy)] leave the same
    coefficients. *)
Theorem X23_translate_on_identity (h : heap float) (this : Matrix3x2)
    (c f dx dy : Z) :
  h !! buffer this
    = Some (Float32Array [1%float; 0%float; integer c; 0%float; 1%float; integer f]) →
  Forall (λ n, Z.abs n <= 1000)%Z [c; f; dx; dy] →
  ∃ l1 l2 : list float,
    Matrix3x2.translate this (integer dx) (integer dy) h
      = Some (this, <[buffer this := Float32Array l1]> h)
    ∧ Matrix3x2.translateAbsolute this (integer dx) (integer dy) h
      = Some (this, <[buffer this := Float32Array l2]> h)
    ∧ same_numbers l1 l2.
Proof.
  intros Hthis Hb. bounds Hb.
  erewrite translate_spec, translateAbsolute_spec by done.
  eexists _, _. split; [reflexivity|]. split; [reflexivity|]. agree; ring.
Qed.

Lemma X23_translate_on_identity_witness :
  let h : heap float :=
    {[ 1%positive := Float32Array
         [1%float; 0%float; integer 4; 0%float; 1%float; integer 7] ]} in
  let this := {| buffer := 1%positive |} in
  ∃ l1 l2 : list float,
    Matrix3x2.translate this (integer 2) (integer 3) h
      = Some (this, <[buffer this := Float32Array l1]> h)
    ∧ Matrix3x2.translateAbsolute this (integer 2) (integer 3) h
      = Some (this, <[buffer this := Float32Array l2]> h)
    ∧ same_numbers l1 l2.
Proof.
  intros h this.
  exact (X23_translate_on_identity h this 4 7 2 3 ltac:(reflexivity)
           ltac:(repeat constructor; discriminate))%Z.
Defined.

(** ** What the methods never touch *)

Section Footprint.
Context {F : Type} `{Number F} `{MathObject F}.

Lemma read_x_heap (h h' : heap F) vector v : read_x vector h = Some (v, h') → h' = h.
Proof. unfold read_x. destruct (h !! vector) as [[l|x y]|]; naive_solver. Qed.

Lemma read_y_heap (h h' : heap F) vector v : read_y vector h = Some (v, h') → h' = h.
Proof. unfold read_y. destruct (h !! vector) as [[l|x y]|]; naive_solver. Qed.

Lemma write_x_frame (h h' : heap F) vector v u l :
  write_x vector v h = Some (u, h') → l ≠ vector → h' !! l = h !! l.
Proof.
  unfold write_x. destruct (h !! vector) as [[t|x y]|]; try done.
  intros [= _ <-] Hne. by rewrite lookup_insert_ne.
Qed.

Lemma write_y_frame (h h' : heap F) vector v u l :
  write_y vector v h = Some (u, h') → l ≠ vector → h' !! l = h !! l.
Proof.
  unfold write_y. destruct (h !! vector) as [[t|x y]|]; try done.
  intros [= _ <-] Hne. by rewrite lookup_insert_ne.
Qed.

(** Every mutating method returns its receiver. *)
Lemma mutate_returns_this (h h' : heap F) (this r : Matrix3x2) (call : mutation F) :
  mutate this call h = Some (r, h') → r = this.
Proof.
  intros Hrun.
  destruct call; cbn [mutate] in Hrun.
  all: unfold Matrix3x2.set, Matrix3x2.identity, Matrix3x2.translate,
         Matrix3x2.translateAbsolute, Matrix3x2.rotate, Matrix3x2.scale,
         Matrix3x2.multiply, Matrix3x2.invert in Hrun; cbv zeta in Hrun.
  all: repeat (apply bind_Some in Hrun as (? & ? & _ & Hrun)).
  all: by injection Hrun as <- _.
Qed.

Lemma apply_frame (h h' : heap F) (this : Matrix3x2) (vector q l : loc) :
  Matrix3x2.apply this vector h = Some (q, h') →
  q = vector ∧ (l ≠ vector → h' !! l = h !! l).
Proof.
  intros Hrun. unfold Matrix3x2.apply in Hrun.
  apply bind_Some in Hrun as (? & ? & Hm%read_x_heap & Hrun); subst.
  apply bind_Some in Hrun as (? & ? & Hm%read_y_heap & Hrun); subst.
  do 3 (apply bind_Some in Hrun as (? & ? & Hm%load_heap & Hrun); subst).
  apply bind_Some in Hrun as (? & ? & Hwx & Hrun).
  do 3 (apply bind_Some in Hrun as (? & ? & Hm%load_heap & Hrun); subst).
  apply bind_Some in Hrun as (? & ? & Hwy & Hrun).
  injection Hrun as <- <-. split; [done|]. intros Hne.
  erewrite write_y_frame by done. by erewrite write_x_frame.
Qed.

Lemma same_shape_store (h h' : heap F) arr i v u :
  store arr i v h = Some (u, h') → same_shape h h'.
Proof.
  unfold store. destruct (h !! arr) as [[t|]|] eqn:Harr; try done.
  intros [= _ <-] l. destruct (decide (l = arr)) as [->|Hne].
  - rewrite lookup_insert_eq, Harr. cbn. by rewrite length_insert.
  - by rewrite lookup_insert_ne.
Qed.

Lemma same_shape_typed_array_set (h h' : heap F) target source u :
  typed_array_set target source h = Some (u, h') → same_shape h h'.
Proof.
  unfold typed_array_set.
  destruct (h !! target) as [[t|]|] eqn:Htarget; try done.
  destruct (h !! source) as [[s|]|]; try done.
  case_decide; [|done]. intros [= _ <-] l.
  destruct (decide (l = target)) as [->|Hne].
  - rewrite lookup_insert_eq, Htarget. cbn.
    rewrite length_app, length_drop. do 2 f_equal. lia.
  - by rewrite lookup_insert_ne.
Qed.

Lemma mutate_same_shape (h h' : heap F) (this r : Matrix3x2) (call : mutation F) :
  mutate this call h = Some (r, h') → same_shape h h'.
Proof.
  intros Hrun.
  destruct call; cbn [mutate] in Hrun.
  all: unfold Matrix3x2.set, Matrix3x2.identity, Matrix3x2.translate,
         Matrix3x2.translateAbsolute, Matrix3x2.rotate, Matrix3x2.scale,
         Matrix3x2.multiply, Matrix3x2.invert in Hrun; cbv zeta in Hrun.
  all: repeat
         (let Hm := fresh "Hm" in
          apply bind_Some in Hrun as (? & ? & Hm & Hrun);
          first
            [ apply load_heap in Hm; subst
            | apply same_shape_store in Hm
            | apply same_shape_typed_array_set in Hm ]).
  all: injection Hrun as _ <-; intros l0.
  all: repeat match goal with
         | Hs : same_shape _ _ |- _ => rewrite (Hs l0); clear Hs
         end.
  all: reflexivity.
Qed.
End Footprint.

(** X15: a call of a mutating method returns its receiver, so calls
    chain, and writes to the receiver's buffer only: every other object
    on the heap, the argument of [multiply] and [set] included, is as it
    was.  [apply] returns the vector it was given and writes to nothing
    else: the matrix is as it was. *)
Theorem X15_footprint :
  (∀ (F : Type) (N : Number F) (Mo : MathObject F) (h h' : heap F)
     (this r : Matrix3x2) (call : mutation F),
     mutate this call h = Some (r, h') →
     r = this ∧ ∀ l : loc, l ≠ buffer this → h' !! l = h !! l)
  ∧ (∀ (F : Type) (N : Number F) (h h' : heap F) (this : Matrix3x2)
       (vector q : loc),
       Matrix3x2.apply this vector h = Some (q, h') →
       q = vector ∧ ∀ l : loc, l ≠ vector → h' !! l = h !! l).
Proof.
  split.
  - intros F N Mo h h' this r call Hrun. split.
    + by eapply mutate_returns_this.
    + intros l Hne. by eapply mutate_frame.
  - intros F N h h' this vector q Hrun. split.
    + by eapply (apply_frame _ _ _ _ _ q).
    + intros l. by eapply apply_frame.
Qed.


Lemma X15_footprint_witness :
  let h : heap float :=
    {[ 1%positive := Float32Array [2; 3; 4; 5; 6; 7]%float;
       2%positive := Vector2 8%float 9%float ]} in
  let this := {| buffer := 1%positive |} in
  (this = this
   ∧ ∀ l : loc, l ≠ buffer this →
       <[1%positive := Float32Array [20; 30; 40; 50; 60; 70]%float]> h !! l = h !! l)
  ∧ (2%positive = 2%positive
     ∧ ∀ l : loc, l ≠ 2%positive →
         <[2%positive := Vector2 47%float 101%float]> h !! l = h !! l).
Proof.
  intros h this. split.
  - exact (proj1 X15_footprint float _ Math_known h _ this this (Scale 10%float)
             (scale_spec h this 2 3 4 5 6 7 10 eq_refl)%float).
  - exact (proj2 X15_footprint float _ h _ this 2%positive 2%positive
             (apply_spec h this 2%positive 2 3 4 5 6 7 8 9 eq_refl eq_refl)%float).
Defined.

(** X16: no mutating method changes the shape of the heap: every typed
    array keeps its number of elements (a six-element buffer stays a
    six-element buffer), every vector keeps its coordinates, and no
    object appears or disappears. *)
Theorem X16_shape_preserved {F : Type} `{Number F} `{MathObject F}
    (h h' : heap F) (this r : Matrix3x2) (call : mutation F) :
  mutate this call h = Some (r, h') →
  (∀ (l : loc) (t : list F), h !! l = Some (Float32Array t) →
     ∃ t', h' !! l = Some (Float32Array t') ∧ length t' = length t)
  ∧ (∀ (l : loc) (x y : F), h !! l = Some (Vector2 x y) →
       h' !! l = Some (Vector2 x y))
  ∧ (∀ l : loc, h !! l = None → h' !! l = None).
Proof.
  intros Hrun%mutate_same_shape. repeat split.
  - intros l t Hl. specialize (Hrun l). rewrite Hl in Hrun.
    destruct (h' !! l) as [[t'|x y]|]; try done.
    injection Hrun as Hlen. eauto.
  - intros l x y Hl. specialize (Hrun l). rewrite Hl in Hrun.
    destruct (h' !! l) as [[t'|x' y']|]; try done.
    by injection Hrun as <- <-.
  - intros l Hl. specialize (Hrun l). rewrite Hl in Hrun.
    by destruct (h' !! l).
Qed.


Lemma X16_shape_preserved_witness :
  let h : heap float :=
    {[ 1%positive := Float32Array [2; 3; 4; 5; 6; 7]%float;
       2%positive := Vector2 8%float 9%float ]} in
  let h' : heap float :=
    <[1%positive := Float32Array [20; 30; 40; 50; 60; 70]%float]> h in
  (∀ (l : loc) (t : list float), h !! l = Some (Float32Array t) →
     ∃ t', h' !! l = Some (Float32Array t') ∧ length t' = length t)
  ∧ (∀ (l : loc) (x y : float), h !! l = Some (Vector2 x y) →
       h' !! l = Some (Vector2 x y))
  ∧ (∀ l : loc, h !! l = None → h' !! l = None).
Proof.
  intros h h'.
  exact (X16_shape_preserved (H0 := Math_known) h h' {| buffer := 1%positive |}
           {| buffer := 1%positive |} (Scale 10%float)
           (scale_spec h {| buffer := 1%positive |} 2 3 4 5 6 7 10 eq_refl)%float).
Defined.

(** X17: [set] with the receiver itself as argument changes nothing. *)
Theorem X17_set_self {F : Type} `{Number F} (h : heap F) (this : Matrix3x2)
    (l : list F) :
  h !! buffer this = Some (Float32Array l) →
  Matrix3x2.set this this h = Some (this, h).
Proof.
  intros Hthis. unfold Matrix3x2.set.
  erewrite bind_eq by (eapply typed_array_set_eq; eauto).
  by rewrite insert_id.
Qed.

Lemma X17_set_self_witness :
  let h : heap float :=
    {[ 1%positive := Float32Array [2; 3; 4; 5; 6; 7]%float ]} in
  Matrix3x2.set {| buffer := 1%positive |} {| buffer := 1%positive |} h
    = Some ({| buffer := 1%positive |}, h).
Proof.
  intros h.
  exact (X17_set_self h {| buffer := 1%positive |} [2; 3; 4; 5; 6; 7]%float
           ltac:(reflexivity)).
Defined.

(** ** Binary64 behaviour at the edges *)

Section Binary64.
Local Open Scope float_scope.

Lemma fround_1 : Math_fround 1 = 1.
Proof. vm_compute. reflexivity. Qed.

Lemma fround_0 : Math_fround 0 = 0.
Proof. vm_compute. reflexivity. Qed.

Lemma is_finite_spec (x : float) : is_finite x = negb (SF_nonfinite (Prim2SF x)).
Proof.
  unfold is_finite, is_nan, is_infinity.
  rewrite !FloatAxioms.eqb_spec, abs_spec.
  destruct (Prim2SF x) as [s|s| |s m e]; cbn [SF_nonfinite SFabs negb].
  - by destruct s.
  - by destruct s.
  - reflexivity.
  - by rewrite !SFeqb_finite_refl.
Qed.

Lemma is_nan_spec (x : float) : Prim2SF x = S754_nan → is_nan x = true.
Proof. intros Hx. unfold is_nan. by rewrite FloatAxioms.eqb_spec, Hx. Qed.

Lemma is_nan_inv (x : float) : is_nan x = true → Prim2SF x = S754_nan.
Proof.
  unfold is_nan. rewrite FloatAxioms.eqb_spec.
  destruct (Prim2SF x) as [s|s| |s m e]; try done.
  - by destruct s.
  - by rewrite SFeqb_finite_refl.
Qed.

Lemma is_zero_spec (x : float) :
  is_zero x = match Prim2SF x with S754_zero _ => true | _ => false end.
Proof.
  unfold is_zero. rewrite FloatAxioms.eqb_spec.
  destruct (Prim2SF x) as [s|s| |s m e]; try done; by destruct s.
Qed.

(** Multiplying a finite number by 1 is exact. *)
Lemma SFmul_one_l (s : bool) (m : positive) (e : Z) :
  valid_binary (S754_finite s m e) = true →
  SF64mul (S754_finite false 4503599627370496 (-52)) (S754_finite s m e)
  = S754_finite s m e.
Proof.
  intros Hvalid. cbn [SpecFloat.valid_binary] in Hvalid.
  unfold bounded, canonical_mantissa in Hvalid.
  apply andb_prop in Hvalid as [Hcanon Hbound].
  apply Z.eqb_eq in Hcanon.
  unfold SF64mul, SFmul. cbn [xorb].
  unfold binary_round_aux, shr_fexp.
  assert (Hd : Zdigits2 (Zpos (4503599627370496 * m))
               = (Zpos (digits2_pos m) + 52)%Z).
  { cbv [Pos.mul Zdigits2 digits2_pos]. lia. }
  rewrite Hd.
  replace (Z.pos (digits2_pos m) + 52 + (-52 + e))%Z
    with (Z.pos (digits2_pos m) + e)%Z by lia.
  rewrite Hcanon.
  replace (e - (-52 + e))%Z with 52%Z by lia.
  cbv [shr_record_of_loc shr Pos.mul SpecFloat.iter_pos shr_1 orb].
  cbn [shr_m loc_of_shr_record round_nearest_even].
  replace (-52 + e + 52)%Z with e by lia.
  cbn [Zdigits2]. rewrite Hcanon, Z.sub_diag. cbn [shr shr_m].
  by rewrite Hbound.
Qed.

(** The coordinate [1·x + 0·y + 0] that the identity coefficients give:
    [x] itself, with [-0] turned into [0]. *)
Lemma identity_row_x (x y : float) :
  is_finite x = true → is_finite y = true →
  1 * x + 0 * y + 0 = if is_zero x then 0 else x.
Proof.
  rewrite !is_finite_spec, is_zero_spec. intros Hx Hy.
  apply Prim2SF_inj. rewrite !add_spec, !mul_spec.
  pose proof (Prim2SF_valid x) as Hvalid.
  change (Prim2SF 1) with (S754_finite false 4503599627370496 (-52)).
  change (Prim2SF 0) with (S754_zero false).
  destruct (Prim2SF x) as [sx|sx| |sx mx ex] eqn:Ex; try discriminate Hx;
    destruct (Prim2SF y) as [sy|sy| |sy my ey]; try discriminate Hy.
  - by destruct sx, sy.
  - by destruct sx, sy.
  - rewrite SFmul_one_l by done. by rewrite Ex.
  - rewrite SFmul_one_l by done. by rewrite Ex.
Qed.

Lemma identity_row_y (x y : float) :
  is_finite x = true → is_finite y = true →
  0 * x + 1 * y + 0 = if is_zero y then 0 else y.
Proof.
  rewrite !is_finite_spec, is_zero_spec. intros Hx Hy.
  apply Prim2SF_inj. rewrite !add_spec, !mul_spec.
  pose proof (Prim2SF_valid y) as Hvalid.
  change (Prim2SF 1) with (S754_finite false 4503599627370496 (-52)).
  change (Prim2SF 0) with (S754_zero false).
  destruct (Prim2SF x) as [sx|sx| |sx mx ex]; try discriminate Hx;
    destruct (Prim2SF y) as [sy|sy| |sy my ey] eqn:Ey; try discriminate Hy.
  - by destruct sx, sy.
  - rewrite SFmul_one_l by done. by rewrite Ey.
  - by destruct sx, sy.
  - rewrite SFmul_one_l by done. by rewrite Ey.
Qed.

(** A zero coefficient does not hide a non-finite coordinate: [0·y] is
    [NaN] then, and so is every sum it enters. *)
Lemma zero_times_nonfinite (u v w y : float) :
  is_finite y = false → is_nan (u + 0 * y + w) = true ∧ is_nan (0 * y + v + w) = true.
Proof.
  rewrite is_finite_spec. intros Hy.
  split; apply is_nan_spec; rewrite !add_spec, !mul_spec;
    change (Prim2SF 0) with (S754_zero false);
    destruct (Prim2SF y) as [sy|sy| |sy my ey]; try discriminate Hy; cbn;
    by destruct (Prim2SF u), (Prim2SF v), (Prim2SF w).
Qed.
End Binary64.

(** X18: a matrix is constructed with six zeros in a buffer of its own; it
    is singular, so [invert] before any [identity()] leaves only
    non-finite coefficients in it. *)
Theorem X18_new_is_singular (h : heap float) :
  ∃ (m : Matrix3x2) (h1 : heap float),
    Matrix3x2.new h = Some (m, h1)
    ∧ h !! buffer m = None
    ∧ h1 = <[buffer m := Float32Array [0; 0; 0; 0; 0; 0]%float]> h
    ∧ invert_poisons m h1.
Proof.
  destruct (new_spec h) as [Hfresh Hnew]. cbv zeta in Hnew.
  eexists _, _. split; [exact Hnew|]. split; [exact Hfresh|].
  split; [reflexivity|].
  eapply invert_singular; [by rewrite lookup_insert_eq | reflexivity].
Qed.

(** X19: what [identity()] followed by [apply] does to a point in
    binary64.  Finite coordinates come back as they were, except that
    [-0] comes back as [0]; but a coordinate that is not finite turns
    the other one into [NaN], because [0·Infinity] is [NaN]. *)
Theorem X19_identity_apply_binary64 (h : heap float) (this : Matrix3x2) (p : loc)
    (a b c d e f x y : float) :
  h !! buffer this = Some (Float32Array [a; b; c; d; e; f]) →
  h !! p = Some (Vector2 x y) →
  ∃ (x' y' : float) (h' : heap float),
    (m ← Matrix3x2.identity this; Matrix3x2.apply m p) h = Some (p, h')
    ∧ h' !! p = Some (Vector2 x' y')
    ∧ (is_finite x = true → is_finite y = true →
       x' = (if is_zero x then 0 else x)%float
       ∧ y' = (if is_zero y then 0 else y)%float)
    ∧ (is_finite y = false → is_nan x' = true)
    ∧ (is_finite x = false → is_nan y' = true).
Proof.
  intros Hthis Hp. assert (p ≠ buffer this) by congruence.
  run_call. erewrite apply_spec by heap_lookup.
  eexists _, _, _. split; [reflexivity|].
  rewrite lookup_insert_eq. split; [reflexivity|].
  cbn [fround num_0 num_1 num_add num_mul float_Number].
  rewrite fround_1, fround_0.
  split; [|split].
  - intros Hx Hy. split; [by apply identity_row_x | by apply identity_row_y].
  - intros Hy. by apply (zero_times_nonfinite _ 0%float).
  - intros Hx. by apply (zero_times_nonfinite 0%float).
Qed.

Lemma X19_identity_apply_binary64_witness :
  let h : heap float :=
    {[ 1%positive := Float32Array [2; 3; 4; 5; 6; 7]%float;
       2%positive := Vector2 (-0)%float infinity ]} in
  ∃ (x' y' : float) (h' : heap float),
    (m ← Matrix3x2.identity {| buffer := 1%positive |};
     Matrix3x2.apply m 2%positive) h = Some (2%positive, h')
    ∧ h' !! 2%positive = Some (Vector2 x' y')
    ∧ (is_finite (-0)%float = true → is_finite infinity = true →
       x' = (if is_zero (-0) then 0 else (-0))%float
       ∧ y' = (if is_zero infinity then 0 else infinity)%float)
    ∧ (is_finite infinity = false → is_nan x' = true)
    ∧ (is_finite (-0)%float = false → is_nan y' = true).
Proof.
  intros h.
  exact (X19_identity_apply_binary64 h {| buffer := 1%positive |} 2%positive
           2 3 4 5 6 7 (-0) infinity ltac:(reflexivity) ltac:(reflexivity))%float.
Defined.

(** ** NaN never leaves *)

Section NaN.
Local Open Scope float_scope.

Lemma nan_add_l (x y : float) : Prim2SF x = S754_nan → Prim2SF (x + y) = S754_nan.
Proof. intros Hx. by rewrite add_spec, Hx. Qed.

Lemma nan_add_r (x y : float) : Prim2SF y = S754_nan → Prim2SF (x + y) = S754_nan.
Proof. intros Hy. rewrite add_spec, Hy. by destruct (Prim2SF x). Qed.

Lemma nan_sub_l (x y : float) : Prim2SF x = S754_nan → Prim2SF (x - y) = S754_nan.
Proof. intros Hx. by rewrite sub_spec, Hx. Qed.

Lemma nan_sub_r (x y : float) : Prim2SF y = S754_nan → Prim2SF (x - y) = S754_nan.
Proof. intros Hy. rewrite sub_spec, Hy. by destruct (Prim2SF x). Qed.

Lemma nan_mul_l (x y : float) : Prim2SF x = S754_nan → Prim2SF (x * y) = S754_nan.
Proof. intros Hx. by rewrite mul_spec, Hx. Qed.

Lemma nan_mul_r (x y : float) : Prim2SF y = S754_nan → Prim2SF (x * y) = S754_nan.
Proof. intros Hy. rewrite mul_spec, Hy. by destruct (Prim2SF x). Qed.

Lemma nan_div_r (x y : float) : Prim2SF y = S754_nan → Prim2SF (x / y) = S754_nan.
Proof. intros Hy. rewrite div_spec, Hy. by destruct (Prim2SF x). Qed.

Lemma nan_opp (x : float) : Prim2SF x = S754_nan → Prim2SF (- x) = S754_nan.
Proof. intros Hx. by rewrite opp_spec, Hx. Qed.

Lemma nan_fround (x : float) : Prim2SF x = S754_nan → Prim2SF (Math_fround x) = S754_nan.
Proof. intros Hx. unfold Math_fround. by rewrite Hx. Qed.
End NaN.

Create HintDb nan.
#[local] Hint Resolve nan_add_l nan_add_r nan_sub_l nan_sub_r nan_mul_l nan_mul_r
  nan_div_r nan_opp nan_fround : nan.

(** The entry at a position that held a [NaN] is a [NaN]. *)
Ltac nan_stays :=
  let i := fresh "i" in
  let v := fresh "v" in
  let Hi := fresh "Hi" in
  let Hnan := fresh "Hnan" in
  intros i v Hi Hnan; apply is_nan_inv in Hnan;
  do 6 (try destruct i as [|i]); try discriminate Hi;
  injection Hi as ->; eexists; (split; [reflexivity|]);
  apply is_nan_spec;
  cbn [fround num_0 num_1 num_add num_sub num_mul num_div num_neg float_Number];
  eauto 12 with nan.

(** X20: in binary64 a [NaN] coefficient never goes away by composing:
    after [translate], [translateAbsolute], [rotate], [scale], [multiply]
    (by another matrix or by the receiver itself) or [invert], every
    position of the buffer that held a [NaN] still holds one.  Only
    [identity] and [set], which overwrite, can remove it. *)
Theorem X20_nan_stays (Mo : MathObject float) (h : heap float) (this : Matrix3x2)
    (a b c d e f : float) (call : mutation float) :
  h !! buffer this = Some (Float32Array [a; b; c; d; e; f]) →
  overwrites call = false →
  argument_ok h call →
  ∃ (h' : heap float) (l' : list float),
    mutate this call h = Some (this, h')
    ∧ h' !! buffer this = Some (Float32Array l')
    ∧ ∀ (i : nat) (v : float),
        [a; b; c; d; e; f] !! i = Some v → is_nan v = true →
        ∃ v', l' !! i = Some v' ∧ is_nan v' = true.
Proof.
  intros Hthis Hcall Harg.
  destruct call as [other| |x y|x y|angle|k|other|];
    try discriminate Hcall; cbn [mutate argument_ok] in *.
  - eexists _, _. split; [by eapply translate_spec|].
    rewrite lookup_insert_eq. split; [reflexivity|]. nan_stays.
  - eexists _, _. split; [by eapply translateAbsolute_spec|].
    rewrite lookup_insert_eq. split; [reflexivity|]. nan_stays.
  - eexists _, _. split; [by eapply rotate_spec|].
    rewrite lookup_insert_eq. split; [reflexivity|]. nan_stays.
  - eexists _, _. split; [by eapply scale_spec|].
    rewrite lookup_insert_eq. split; [reflexivity|]. nan_stays.
  - destruct Harg as (a2 & b2 & c2 & d2 & e2 & f2 & Hother).
    destruct (decide (buffer this = buffer other)) as [Heq|Hne].
    + assert (other = this) as -> by (destruct this, other; cbn in *; congruence).
      eexists _, _. split; [exact (multiply_self_spec h this a b c d e f Hthis)|].
      rewrite lookup_insert_eq. split; [reflexivity|]. nan_stays.
    + eexists _, _. split; [by eapply multiply_spec|].
      rewrite lookup_insert_eq. split; [reflexivity|]. nan_stays.
  - eexists _, _. split; [by eapply invert_spec|].
    rewrite lookup_insert_eq. split; [reflexivity|]. nan_stays.
Qed.

Lemma X20_nan_stays_witness :
  let h : heap float :=
    {[ 1%positive := Float32Array [2; nan; 4; 5; 6; 7]%float ]} in
  let this := {| buffer := 1%positive |} in
  ∃ (h' : heap float) (l' : list float),
    mutate (H0 := {| Math_cos := λ _, 1%float; Math_sin := λ _, 0%float |})
      this (Scale 0%float) h = Some (this, h')
    ∧ h' !! buffer this = Some (Float32Array l')
    ∧ ∀ (i : nat) (v : float),
        [2; nan; 4; 5; 6; 7]%float !! i = Some v → is_nan v = true →
        ∃ v', l' !! i = Some v' ∧ is_nan v' = true.
Proof.
  intros h this.
  exact (X20_nan_stays _ h this 2 nan 4 5 6 7 (Scale 0)
           ltac:(reflexivity) ltac:(reflexivity) I)%float.
Defined.


(** ** The getters *)

(** The coordinate [a·0 + b·0 + c] that [apply] gives the origin: [c]
    itself when [a] and [b] are finite (up to the sign of a zero). *)
Lemma origin_row (a b c : float) :
  is_finite a = true → is_finite b = true → is_nan c = false →
  (a * 0 + b * 0 + c =? c)%float = true.
Proof.
  rewrite !is_finite_spec. intros Ha Hb Hc.
  assert (Hc' : Prim2SF c ≠ S754_nan).
  { intros E. by rewrite (is_nan_spec c E) in Hc. }
  rewrite FloatAxioms.eqb_spec, !add_spec, !mul_spec.
  change (Prim2SF 0) with (S754_zero false).
  destruct (Prim2SF a) as [sa|sa| |sa ma ea]; try discriminate Ha;
    destruct (Prim2SF b) as [sb|sb| |sb mb eb]; try discriminate Hb;
    destruct (Prim2SF c) as [sc|sc| |sc mc ec]; try done;
    destruct sa, sb; cbn; try reflexivity; try apply SFeqb_finite_refl;
    by destruct sc.
Qed.

(** X13: the getters [x] and [y] read the offsets [c] and [f] and leave
    the heap alone; in binary64, for a matrix whose linear part is
    finite, they are the coordinates [apply] gives the origin: [===] to
    them, unless the offset is a [NaN]. *)
Theorem X13_getters_origin :
  (∀ (F : Type) (N : Number F) (h : heap F) (this : Matrix3x2) (a b c d e f : F),
     h !! buffer this = Some (Float32Array [a; b; c; d; e; f]) →
     Matrix3x2.get_x this h = Some (c, h) ∧ Matrix3x2.get_y this h = Some (f, h))
  ∧ (∀ (h : heap float) (this : Matrix3x2) (p : loc) (a b c d e f : float),
       h !! buffer this = Some (Float32Array [a; b; c; d; e; f]) →
       h !! p = Some (Vector2 0 0)%float →
       Forall (λ v, is_finite v = true) [a; b; d; e] →
       ∃ x' y' : float,
         Matrix3x2.apply this p h = Some (p, <[p := Vector2 x' y']> h)
         ∧ (is_nan c = false → (x' =? c)%float = true)
         ∧ (is_nan f = false → (y' =? f)%float = true)).
Proof.
  split.
  - intros F N h this a b c d e f Hthis.
    split; by eapply load_eq.
  - intros h this p a b c d e f Hthis Hp Hfin.
    apply Forall_cons_1 in Hfin as [Ha Hfin].
    apply Forall_cons_1 in Hfin as [Hb Hfin].
    apply Forall_cons_1 in Hfin as [Hd Hfin].
    apply Forall_cons_1 in Hfin as [He _].
    eexists _, _. split; [by eapply apply_spec|].
    split; intros Hnan; by apply origin_row.
Qed.

Lemma X13_getters_origin_witness :
  let h : heap float :=
    {[ 1%positive := Float32Array [2; 3; 4; 5; 6; 7]%float;
       2%positive := Vector2 0%float 0%float ]} in
  let this := {| buffer := 1%positive |} in
  (Matrix3x2.get_x this h = Some (4%float, h)
   ∧ Matrix3x2.get_y this h = Some (7%float, h))
  ∧ ∃ x' y' : float,
      Matrix3x2.apply this 2%positive h
        = Some (2%positive, <[2%positive := Vector2 x' y']> h)
      ∧ (is_nan 4 = false → (x' =? 4)%float = true)
      ∧ (is_nan 7 = false → (y' =? 7)%float = true).
Proof.
  intros h this. split.
  - exact (proj1 X13_getters_origin float _ h this 2 3 4 5 6 7
             ltac:(reflexivity))%float.
  - exact (proj2 X13_getters_origin h this 2%positive 2 3 4 5 6 7
             ltac:(reflexivity) ltac:(reflexivity)
             ltac:(repeat constructor))%float.
Defined.
